(** * TapRight backend: the proximity-to-recommendation engine

    A shallow embedding of [backend/server.py]: the haversine distance
    ([calculate_distance]), the reward matcher
    ([get_best_card_for_category]) and the location handler
    ([check_location]) with its reads and writes of the Mongo collections.

    Numbers.  Coordinates, distances and radii are real numbers (the
    handler's floats read in exact arithmetic).  Reward rates are integers,
    as in the seeded card catalogue ([initialize_credit_cards]); the
    [rewards] dict itself puts no bound or sign on them.  [float()] is
    exact on integers up to 2^53 in magnitude ([float_exact]), so a rate
    after conversion is the same integer and only its printed form
    changes; the statements on the matcher's choice and on the printed
    rate are made for such wallets ([exact_rates]).
    Strings are sequences of bytes, and [lower] lowers the ASCII letters,
    which is [str.lower()] on ASCII strings ([isascii]).
    Timestamps are integers counting microseconds, the resolution of
    [datetime]; the database compares them in milliseconds
    ([bson_datetime]).

    Effects.  The handler runs in a state monad over the three collections
    it touches, each a list in insertion order; [find] filters that list,
    [to_list(1000)] keeps its first 1000 entries, [find_one] returns the
    first match and [insert_one] appends.  The monad also keeps the trace
    of the operations performed, so that statements about what a call did
    not do can be made.  The clock readings and the fresh identifiers of a
    call are supplied from outside ([Env]).

    The other routes (card catalogue, wallet, sign-up, login, token check)
    pass the whole database ([Store]) explicitly.  [bcrypt] and [jwt] are
    not part of the repository: the routes that call them take their four
    functions as parameters, and what is proved holds for any such
    functions, under the stated assumption where one is needed. *)

From Stdlib Require Import Reals Lra ZArith Lia Ascii String.
From stdpp Require Import gmap strings pretty list.

Local Open Scope string_scope.
Local Open Scope list_scope.
Local Open Scope Z_scope.

(** ** Models (the pydantic classes) *)

Module UserCard.
Record t := mk {
  id : string;
  user_id : string;
  card_id : string;
  card_name : string;
  card_issuer : string;
  card_color : string;
  rewards : gmap string Z;
  added_at : Z
}.
End UserCard.

Module POILocation.
Record t := mk {
  id : string;
  name : string;
  category : string;
  latitude : R;
  longitude : R;
  address : option string;
  radius : R
}.
End POILocation.

Module LocationCheck.
Record t := mk {
  latitude : R;
  longitude : R;
  user_id : string
}.
End LocationCheck.

Module NotificationLog.
Record t := mk {
  id : string;
  user_id : string;
  poi_id : string;
  card_recommended : string;
  timestamp : Z
}.
End NotificationLog.

Module Recommendation.
Record t := mk {
  merchant_name : string;
  category : string;
  recommended_card : string;
  reward_rate : string;
  message : string
}.
End Recommendation.

(** The authenticated user; the handler reads [id] only. *)
Module User.
Record t := mk {
  id : string;
  name : string;
  email : string;
  phone : string
}.
End User.

(** ** Python strings and numbers *)

(** [str.lower()] on the ASCII letters; other bytes are kept. *)
Definition lower_ascii (c : ascii) : ascii :=
  let n := nat_of_ascii c in
  if ((65 <=? n) && (n <=? 90))%nat then ascii_of_nat (n + 32) else c.

Fixpoint lower (s : string) : string :=
  match s with
  | EmptyString => EmptyString
  | String c s' => String (lower_ascii c) (lower s')
  end.


(** [float(v)] for a stored integer rate, as the catalogue has them: the
    value is unchanged. *)
Definition float_of (v : Z) : Z := v.


(** ** Reward matcher *)

(** The three-way [if]/[elif] of the loop body: the rate a card gets for a
    category, [0.0] when no key applies. *)
Definition card_rate (rewards : gmap string Z) (category : string) : Z :=
  match rewards !! lower category with
  | Some v => float_of v
  | None =>
      match rewards !! "everything" with
      | Some v => float_of v
      | None =>
          match rewards !! "general" with
          | Some v => float_of v
          | None => 0
          end
      end
  end.

(** One iteration of [for card in user_cards], on the pair
    [(best_card, best_rate)]. *)
Definition best_step (category : string)
    (st : option UserCard.t * Z) (card : UserCard.t) : option UserCard.t * Z :=
  let rate := card_rate (UserCard.rewards card) category in
  if decide (rate > snd st) then (Some card, rate) else st.

Definition best_loop (category : string) (user_cards : list UserCard.t)
    (st : option UserCard.t * Z) : option UserCard.t * Z :=
  fold_left (best_step category) user_cards st.

Definition get_best_card_for_category
    (user_cards : list UserCard.t) (category : string) : option (UserCard.t * Z) :=
  match best_loop category user_cards (None, 0) with
  | (Some best_card, best_rate) => Some (best_card, best_rate)
  | (None, _) => None
  end.

(** ** Geo module *)

Section Geo.
Local Open Scope R_scope.

(** [math.radians] *)
Definition radians (x : R) : R := x * (PI / 180).

(** [math.atan2(y, x)]: the angle of the point [(x, y)], in (-PI, PI]. *)
Definition atan2 (y x : R) : R :=
  if Rlt_dec 0 x then atan (y / x)
  else if Rlt_dec x 0 then
    (if Rle_dec 0 y then atan (y / x) + PI else atan (y / x) - PI)
  else if Rlt_dec 0 y then PI / 2
  else if Rlt_dec y 0 then - (PI / 2)
  else 0.

(** The haversine term [a] of [calculate_distance]. *)
Definition hav_a (lat1 lon1 lat2 lon2 : R) : R :=
  let phi1 := radians lat1 in
  let phi2 := radians lat2 in
  let delta_phi := radians (lat2 - lat1) in
  let delta_lambda := radians (lon2 - lon1) in
  sin (delta_phi / 2) ^ 2 + cos phi1 * cos phi2 * sin (delta_lambda / 2) ^ 2.

(** The distance in exact arithmetic.  [math.sqrt] raises [ValueError]
    below zero where [sqrt] returns 0; [hav_a_range] shows that over the
    reals [a] and [1 - a] never are, so there the two agree on every call.
    In floating point [a] can round above 1 for two nearly antipodal
    points, and the call then raises: that is not part of this model, and
    what is proved of the distance is proved of its exact value. *)
Definition calculate_distance (lat1 lon1 lat2 lon2 : R) : R :=
  let R := 6371000 in
  let a := hav_a lat1 lon1 lat2 lon2 in
  let c := 2 * atan2 (sqrt a) (sqrt (1 - a)) in
  R * c.
End Geo.

(** ** The store and the environment *)

(** The three collections the handler touches, each in insertion order. *)
Record Db := mkDb {
  poi_locations : list POILocation.t;
  user_cards : list UserCard.t;
  notification_logs : list NotificationLog.t
}.

(** What one call of the handler obtains from outside: the two readings of
    [datetime.utcnow()] (the throttle bound, then the default timestamp of
    the [NotificationLog]) and the results of [uuid.uuid4()] (one per seeded
    POI, one for the log record). *)
Record Env := mkEnv {
  utcnow_throttle : Z;
  utcnow_log : Z;
  uuid4_poi : nat → string;
  uuid4_log : string
}.

(** The operations a call performs, in the order it performs them. *)
Inductive Op :=
  | FindPois
  | InsertPoi (poi : POILocation.t)
  | CalcDistance (lat1 lon1 lat2 lon2 : R)
  | FindOneLog (user_id poi_id : string) (since : Z)
  | FindUserCards (user_id : string)
  | BestCard (category : string)
  | InsertLog (log : NotificationLog.t).

Record St := mkSt {
  db : Db;
  trace : list Op
}.

(** State monad over the store and the trace. *)
Definition M (A : Type) : Type := St → A * St.

#[global] Instance M_ret : MRet M := λ A x s, (x, s).
#[global] Instance M_bind : MBind M :=
  λ A B f m s, let '(x, s') := m s in f x s'.

Definition tell (ops : list Op) : M unit :=
  λ s, (tt, mkSt (db s) (trace s ++ ops)).

Definition get_db : M Db := λ s, (db s, s).
Definition put_db (d : Db) : M unit := λ s, (tt, mkSt d (trace s)).

(** [db.poi_locations.find().to_list(1000)] *)
Definition find_pois : M (list POILocation.t) :=
  tell [FindPois];;
  d ← get_db;
  mret (take 1000 (poi_locations d)).

(** [db.poi_locations.insert_one(poi.dict())] *)
Definition insert_poi (poi : POILocation.t) : M unit :=
  tell [InsertPoi poi];;
  d ← get_db;
  put_db (mkDb (poi_locations d ++ [poi]) (user_cards d) (notification_logs d)).

(** A [datetime] as BSON keeps it: milliseconds since the epoch, the
    microseconds below a millisecond dropped.  Both a stored date and a
    date inside a query are encoded this way. *)
Definition bson_datetime (t : Z) : Z := t / 1000 * 1000.

(** The filter of [db.notification_logs.find_one].  The collection is kept
    as the list of the documents handed to [insert_one]; the [$gte] test
    compares the two dates as encoded. *)
Definition log_matches (user_id poi_id : string) (since : Z)
    (l : NotificationLog.t) : bool :=
  bool_decide (NotificationLog.user_id l = user_id)
  && bool_decide (NotificationLog.poi_id l = poi_id)
  && bool_decide (bson_datetime (NotificationLog.timestamp l)
                  >= bson_datetime since).

Definition find_one_log (user_id poi_id : string) (since : Z)
    : M (option NotificationLog.t) :=
  tell [FindOneLog user_id poi_id since];;
  d ← get_db;
  mret (List.find (log_matches user_id poi_id since) (notification_logs d)).

(** [db.user_cards.find({'user_id': ...}).to_list(1000)] *)
Definition find_user_cards (user_id : string) : M (list UserCard.t) :=
  tell [FindUserCards user_id];;
  d ← get_db;
  mret (take 1000
          (List.filter (λ c, bool_decide (UserCard.user_id c = user_id))
             (user_cards d))).

(** [db.notification_logs.insert_one(log.dict())] *)
Definition insert_log (log : NotificationLog.t) : M unit :=
  tell [InsertLog log];;
  d ← get_db;
  put_db (mkDb (poi_locations d) (user_cards d) (notification_logs d ++ [log])).

(** ** The sample catalogue *)

Section Catalogue.
Local Open Scope R_scope.

(** The rows of [initialize_poi_locations]: name, category, latitude,
    longitude, radius. *)
Definition sample_pois : list (string * string * R * R * R) :=
  [ ("Starbucks Downtown", "coffee", 37.7749, -122.4194, 200.0);
    ("Starbucks Times Square", "coffee", 40.7580, -73.9855, 200.0);
    ("Starbucks LA", "coffee", 34.0522, -118.2437, 200.0);
    ("Chevron Station", "gas", 37.7849, -122.4094, 200.0);
    ("Shell Gas", "gas", 40.7480, -73.9755, 200.0);
    ("Exxon Station", "gas", 34.0422, -118.2537, 200.0);
    ("BP Gas Station", "gas", 37.7949, -122.4194, 200.0);
    ("Whole Foods Market", "grocery", 37.7849, -122.4294, 200.0);
    ("Trader Joe's", "grocery", 40.7680, -73.9655, 200.0);
    ("Safeway", "grocery", 34.0622, -118.2337, 200.0);
    ("Kroger", "grocery", 37.7449, -122.4394, 200.0);
    ("Chipotle", "dining", 37.7649, -122.4394, 150.0);
    ("McDonald's", "dining", 40.7380, -73.9955, 150.0);
    ("Olive Garden", "dining", 34.0322, -118.2637, 150.0);
    ("Panera Bread", "dining", 37.7849, -122.4494, 150.0);
    ("Target", "retail", 37.7549, -122.4494, 250.0);
    ("Walmart", "retail", 40.7280, -73.9855, 250.0);
    ("Best Buy", "retail", 34.0222, -118.2737, 200.0);
    ("CVS Pharmacy", "retail", 37.7649, -122.4194, 150.0);
    ("Walgreens", "retail", 40.7580, -73.9755, 150.0) ].
End Catalogue.

(** The [POILocation] objects the seeding builds: each draws a fresh id. *)
Definition seed_pois (uuid4 : nat → string) : list POILocation.t :=
  imap (λ i '(name, category, latitude, longitude, radius),
          POILocation.mk (uuid4 i) name category latitude longitude None radius)
       sample_pois.

Fixpoint insert_all (pois : list POILocation.t) : M unit :=
  match pois with
  | [] => mret tt
  | poi :: rest => insert_poi poi;; insert_all rest
  end.

Definition initialize_poi_locations (env : Env) : M unit :=
  insert_all (seed_pois (uuid4_poi env)).

(** ** Recommendation engine *)

(** [min_distance]: a distance, or [float('inf')] before the first match. *)
Inductive ext_float :=
  | Finite (x : R)
  | Infinity.

Definition lt_ext (d : R) (m : ext_float) : Prop :=
  match m with
  | Finite x => (d < x)%R
  | Infinity => True
  end.

#[global] Instance Rle_decision : RelDecision Rle := Rle_dec.
#[global] Instance Rlt_decision : RelDecision Rlt := Rlt_dec.
#[global] Instance lt_ext_decision d m : Decision (lt_ext d m).
Proof. destruct m; simpl; apply _. Defined.

Definition distance_to (location : LocationCheck.t) (poi : POILocation.t) : R :=
  calculate_distance
    (LocationCheck.latitude location) (LocationCheck.longitude location)
    (POILocation.latitude poi) (POILocation.longitude poi).

(** One iteration of [for poi_data in all_pois], on the pair
    [(nearby_poi, min_distance)]. *)
Definition nearest_step (location : LocationCheck.t)
    (st : option POILocation.t * ext_float) (poi : POILocation.t)
    : option POILocation.t * ext_float :=
  let distance := distance_to location poi in
  if decide ((distance <= POILocation.radius poi)%R ∧ lt_ext distance (snd st))
  then (Some poi, Finite distance)
  else st.

Definition nearest_loop (location : LocationCheck.t)
    (all_pois : list POILocation.t) (st : option POILocation.t * ext_float)
    : option POILocation.t * ext_float :=
  fold_left (nearest_step location) all_pois st.

Definition nearest_poi (location : LocationCheck.t)
    (all_pois : list POILocation.t) : option POILocation.t :=
  fst (nearest_loop location all_pois (None, Infinity)).

(** The dictionaries [check_location] returns; [found] and [message] read
    the keys that every one of them carries. *)
Inductive Response :=
  | NotFound
  | Throttled (merchant category : string)
  | NoCards (merchant category : string)
  | NoMatch (merchant category : string)
  | Recommended (recommendation : Recommendation.t).

Definition found (r : Response) : bool :=
  match r with
  | NotFound => false
  | _ => true
  end.

Definition message (r : Response) : string :=
  match r with
  | NotFound => "No merchants nearby"
  | Throttled _ _ => "Already notified recently"
  | NoCards _ _ => "No cards in wallet"
  | NoMatch _ _ => "No matching rewards"
  | Recommended rec => Recommendation.message rec
  end.

(** The ['merchant'] key, or ['merchant_name'] of the recommendation. *)
Definition merchant (r : Response) : option string :=
  match r with
  | NotFound => None
  | Throttled m _ | NoCards m _ | NoMatch m _ => Some m
  | Recommended rec => Some (Recommendation.merchant_name rec)
  end.

(** The ['throttled'] key, absent (false) unless the call was throttled. *)
Definition throttled (r : Response) : bool :=
  match r with
  | Throttled _ _ => true
  | _ => false
  end.

(** [timedelta(hours=h)] in microseconds. *)
Definition timedelta_hours (h : Z) : Z := h * 3600 * 1000000.

(** [f"{x}"] for a float of integer value below 10^16 in magnitude: the
    digits and one decimal zero. *)
Definition float_str (x : Z) : string := pretty x +:+ ".0".

(** [int(x)] for a float of integer value. *)
Definition int_of (x : Z) : Z := x.

Definition reward_text (best_rate : Z) : string :=
  if decide (best_rate < 10)
  then float_str best_rate +:+ "% back"
  else pretty (int_of best_rate) +:+ "x points".

Definition check_location (env : Env) (location : LocationCheck.t)
    (current_user : User.t) : M Response :=
  all_pois ← find_pois;
  all_pois ← match all_pois with
             | [] => initialize_poi_locations env;; find_pois
             | _ => mret all_pois
             end;
  tell (map (λ poi, CalcDistance
                      (LocationCheck.latitude location)
                      (LocationCheck.longitude location)
                      (POILocation.latitude poi)
                      (POILocation.longitude poi)) all_pois);;
  match nearest_poi location all_pois with
  | None => mret NotFound
  | Some nearby_poi =>
      let four_hours_ago := utcnow_throttle env - timedelta_hours 4 in
      recent_notification ←
        find_one_log (User.id current_user) (POILocation.id nearby_poi)
          four_hours_ago;
      match recent_notification with
      | Some _ =>
          mret (Throttled (POILocation.name nearby_poi)
                  (POILocation.category nearby_poi))
      | None =>
          user_cards ← find_user_cards (User.id current_user);
          match user_cards with
          | [] =>
              mret (NoCards (POILocation.name nearby_poi)
                      (POILocation.category nearby_poi))
          | _ =>
              tell [BestCard (POILocation.category nearby_poi)];;
              match get_best_card_for_category user_cards
                      (POILocation.category nearby_poi) with
              | None =>
                  mret (NoMatch (POILocation.name nearby_poi)
                          (POILocation.category nearby_poi))
              | Some (best_card, best_rate) =>
                  let log :=
                    NotificationLog.mk (uuid4_log env) (User.id current_user)
                      (POILocation.id nearby_poi)
                      (UserCard.card_name best_card) (utcnow_log env) in
                  insert_log log;;
                  let reward_text := reward_text best_rate in
                  mret (Recommended
                    (Recommendation.mk
                       (POILocation.name nearby_poi)
                       (POILocation.category nearby_poi)
                       (UserCard.card_name best_card)
                       reward_text
                       ("Hey, you're at " +:+ POILocation.name nearby_poi
                        +:+ "! Use " +:+ UserCard.card_name best_card
                        +:+ " to get " +:+ reward_text +:+ ".")))
              end
          end
      end
  end.

(** A call from a store, with an empty trace. *)
Definition run {A} (m : M A) (d : Db) : A * St := m (mkSt d []).

(** ** Sequences of calls *)

Record Call := mkCall {
  call_env : Env;
  call_location : LocationCheck.t;
  call_user : User.t
}.

(** One request served against the store [d]. *)
Definition handle (c : Call) (d : Db) : Response * Db :=
  let '(r, s) := run (check_location (call_env c) (call_location c) (call_user c)) d in
  (r, db s).

Fixpoint run_calls (cs : list Call) (d : Db) : list Response * Db :=
  match cs with
  | [] => ([], d)
  | c :: cs' =>
      let '(r, d') := handle c d in
      let '(rs, d'') := run_calls cs' d' in
      (r :: rs, d'')
  end.

(** Calls listed in the order of their clock readings. *)
Fixpoint chronological (cs : list Call) : Prop :=
  match cs with
  | [] => True
  | c :: cs' =>
      Forall (λ c', utcnow_throttle (call_env c) ≤ utcnow_throttle (call_env c')) cs'
      ∧ chronological cs'
  end.

(** The records of a (user, POI) pair that the throttle query matches at
    [now]. *)
Definition active_records (user_id poi_id : string) (now : Z)
    (logs : list NotificationLog.t) : list NotificationLog.t :=
  List.filter (log_matches user_id poi_id (now - timedelta_hours 4)) logs.

(** The records of a (user, POI) pair whose timestamp is inside the
    cooldown window at [now], to the microsecond. *)
Definition window_records (user_id poi_id : string) (now : Z)
    (logs : list NotificationLog.t) : list NotificationLog.t :=
  List.filter
    (λ l, bool_decide (NotificationLog.user_id l = user_id)
          && bool_decide (NotificationLog.poi_id l = poi_id)
          && bool_decide (NotificationLog.timestamp l
                          >= now - timedelta_hours 4))
    logs.

(** ** Vocabulary of the proofs *)

(** The store after the catalogue was loaded: seeded when the first read
    came back empty. *)
Definition seeded (env : Env) (d : Db) : Db :=
  match take 1000 (poi_locations d) with
  | [] => mkDb (poi_locations d ++ seed_pois (uuid4_poi env))
               (user_cards d) (notification_logs d)
  | _ => d
  end.

(** [all_pois] as the loop of [check_location] receives it. *)
Definition loaded_pois (env : Env) (d : Db) : list POILocation.t :=
  take 1000 (poi_locations (seeded env d)).

Definition load_ops (env : Env) (d : Db) : list Op :=
  match take 1000 (poi_locations d) with
  | [] => FindPois :: map InsertPoi (seed_pois (uuid4_poi env)) ++ [FindPois]
  | _ => [FindPois]
  end.

Definition distance_ops (location : LocationCheck.t)
    (all_pois : list POILocation.t) : list Op :=
  map (λ poi, CalcDistance
                (LocationCheck.latitude location)
                (LocationCheck.longitude location)
                (POILocation.latitude poi)
                (POILocation.longitude poi)) all_pois.

(** The user's wallet as [check_location] reads it. *)
Definition wallet (user_id : string) (d : Db) : list UserCard.t :=
  take 1000
    (List.filter (λ c, bool_decide (UserCard.user_id c = user_id)) (user_cards d)).

Definition in_geofence (location : LocationCheck.t) (poi : POILocation.t) : Prop :=
  (distance_to location poi <= POILocation.radius poi)%R.


(** State of the card loop after a prefix [cards], started from [(b0, r0)]. *)
Definition best_inv (category : string) (b0 : option UserCard.t) (r0 : Z)
    (cards : list UserCard.t) (st : option UserCard.t * Z) : Prop :=
  let rate c := card_rate (UserCard.rewards c) category in
  (st = (b0, r0) ∧ Forall (λ c, rate c ≤ r0) cards)
  ∨ (∃ i c, cards !! i = Some c ∧ st = (Some c, rate c) ∧ r0 < rate c
            ∧ Forall (λ c', rate c' ≤ rate c) cards
            ∧ ∀ j c', (j < i)%nat → cards !! j = Some c' → rate c' < rate c).

(** State of the POI loop after a prefix [pois]. *)
Definition nearest_inv (location : LocationCheck.t)
    (pois : list POILocation.t) (st : option POILocation.t * ext_float) : Prop :=
  let dist := distance_to location in
  (st = (None, Infinity) ∧ Forall (λ q, ¬ in_geofence location q) pois)
  ∨ (∃ i p, pois !! i = Some p ∧ st = (Some p, Finite (dist p))
            ∧ in_geofence location p
            ∧ Forall (λ q, in_geofence location q → (dist p <= dist q)%R) pois
            ∧ ∀ j q, (j < i)%nat → pois !! j = Some q →
                     in_geofence location q → (dist p < dist q)%R).

(** The cooldown invariant: from time [T] on, no pair has two records in
    its window. *)
Definition cooldown_inv (T : Z) (logs : list NotificationLog.t) : Prop :=
  ∀ user_id poi_id now, T ≤ now →
    (length (active_records user_id poi_id now logs) ≤ 1)%nat.

Definition is_insert_log (op : Op) : bool :=
  match op with InsertLog _ => true | _ => false end.

Definition is_best_card (op : Op) : bool :=
  match op with BestCard _ => true | _ => false end.

Definition is_find_one_log (op : Op) : bool :=
  match op with FindOneLog _ _ _ => true | _ => false end.


(** The operations of the catalogue load and the distance loop. *)
Definition is_geo_phase (op : Op) : bool :=
  match op with
  | FindPois | InsertPoi _ | CalcDistance _ _ _ _ => true
  | _ => false
  end.

(** ** A worked scene: one gas station, a wallet of two cards *)

Definition chevron : POILocation.t :=
  POILocation.mk "poi-chevron" "Chevron Station" "gas"
    37.7849%R (-122.4094)%R None 200.0%R.

(** A place far from every sample POI. *)
Definition portland : LocationCheck.t :=
  LocationCheck.mk 45.5231%R (-122.6765)%R "user-1".

Definition at_chevron : LocationCheck.t :=
  LocationCheck.mk 37.7849%R (-122.4094)%R "user-1".





Definition alice : User.t := User.mk "user-1" "Alice" "alice@example.com" "555-0100".

Definition card_of (name : string) (rewards : gmap string Z) : UserCard.t :=
  UserCard.mk name "user-1" name name "issuer" "#000000" rewards 0.

Definition blue_cash : UserCard.t := card_of "Blue Cash" {[ "gas" := 3; "general" := 1 ]}.
Definition double_cash : UserCard.t := card_of "Double Cash" {[ "everything" := 2 ]}.

Definition scene : Db := mkDb [chevron] [blue_cash; double_cash] [].

Definition env_at (now : Z) : Env :=
  mkEnv now now (λ i, "seed-" +:+ pretty i) "log-1".

Definition chevron_rec : Recommendation.t :=
  Recommendation.mk "Chevron Station" "gas" "Blue Cash" "3.0% back"
    "Hey, you're at Chevron Station! Use Blue Cash to get 3.0% back.".

Definition notified (now : Z) : NotificationLog.t :=
  NotificationLog.mk "log-1" "user-1" "poi-chevron" "Blue Cash" now.

Definition call_at (now : Z) : Call := mkCall (env_at now) at_chevron alice.

(** ** The rest of the API: catalogue, wallet and accounts *)

Module CreditCard.
Record t := mk {
  id : string;
  name : string;
  issuer : string;
  image_base64 : option string;
  rewards : gmap string Z;
  annual_fee : R;
  color : string
}.
End CreditCard.

(** A document of [db.users]: the [User] model with its stored hash.  The
    questionnaire, which no route modelled here reads, is left out. *)
Module UserDoc.
Record t := mk {
  id : string;
  name : string;
  email : string;
  phone : string;
  password_hash : string;
  created_at : Z
}.
End UserDoc.

(** The [User] object built from a document, keeping the fields the
    routes read. *)
Definition to_user (doc : UserDoc.t) : User.t :=
  User.mk (UserDoc.id doc) (UserDoc.name doc) (UserDoc.email doc)
    (UserDoc.phone doc).

(** The whole database: the collections of [check_location] and the two
    it does not touch. *)
Record Store := mkStore {
  users : list UserDoc.t;
  credit_cards : list CreditCard.t;
  core : Db
}.

Definition with_user_cards (s : Store) (cards : list UserCard.t) : Store :=
  mkStore (users s) (credit_cards s)
    (mkDb (poi_locations (core s)) cards (notification_logs (core s))).

(** What a route answers: its return value, or the [HTTPException] it
    raised. *)
Inductive Http (A : Type) :=
  | Returned (a : A)
  | HTTPException (status_code : Z) (detail : string).
Arguments Returned {A} a.
Arguments HTTPException {A} status_code detail.

(** *** The card catalogue *)

Section CardCatalogue.
Local Open Scope R_scope.

(** The rows of [initialize_credit_cards]: name, issuer, color, rewards,
    annual fee. *)
Definition default_cards : list (string * string * string * gmap string Z * R) :=
  [ ("Blue Cash Everyday", "American Express", "#006FCF",
     {[ "gas" := 3%Z; "grocery" := 2%Z; "general" := 1%Z ]}, 0.0);
    ("Freedom Flex", "Chase", "#0F4D92",
     {[ "dining" := 3%Z; "gas" := 3%Z; "general" := 1%Z ]}, 0.0);
    ("Discover it Cash Back", "Discover", "#FF6B00",
     {[ "dining" := 5%Z; "grocery" := 5%Z; "gas" := 5%Z; "general" := 1%Z ]}, 0.0);
    ("Double Cash", "Citi", "#003B71",
     {[ "everything" := 2%Z ]}, 0.0);
    ("SavorOne", "Capital One", "#D8232A",
     {[ "dining" := 3%Z; "entertainment" := 3%Z; "grocery" := 2%Z;
        "general" := 1%Z ]}, 0.0);
    ("Sapphire Preferred", "Chase", "#1A2870",
     {[ "dining" := 3%Z; "travel" := 3%Z; "general" := 1%Z ]}, 95.0);
    ("Gold Card", "American Express", "#C9A668",
     {[ "dining" := 4%Z; "grocery" := 4%Z; "general" := 1%Z ]}, 250.0) ].
End CardCatalogue.

(** The [CreditCard] objects the seeding builds: each draws a fresh id. *)
Definition seed_cards (uuid4 : nat → string) : list CreditCard.t :=
  imap (λ i '(name, issuer, color, rewards, annual_fee),
          CreditCard.mk (uuid4 i) name issuer None rewards annual_fee color)
       default_cards.

(** [initialize_credit_cards]: one [insert_one] per card, in order. *)
Definition initialize_credit_cards (uuid4 : nat → string) (s : Store) : Store :=
  mkStore (users s) (credit_cards s ++ seed_cards uuid4) (core s).

(** [GET /cards] *)
Definition get_all_cards (uuid4 : nat → string) (s : Store)
    : list CreditCard.t * Store :=
  match take 1000 (credit_cards s) with
  | [] =>
      let s' := initialize_credit_cards uuid4 s in
      (take 1000 (credit_cards s'), s')
  | cards => (cards, s)
  end.

(** *** The wallet *)

(** The filter [{'user_id': ..., 'card_id': ...}] on [db.user_cards]. *)
Definition wallet_entry (user_id card_id : string) (c : UserCard.t) : bool :=
  bool_decide (UserCard.user_id c = user_id)
  && bool_decide (UserCard.card_id c = card_id).

(** [POST /user-cards]; [uuid4] and [utcnow] are what the default
    factories of the new [UserCard] draw. *)
Definition add_user_card (uuid4 : string) (utcnow : Z) (card_id : string)
    (current_user : User.t) (s : Store) : Http UserCard.t * Store :=
  match List.find (λ c, bool_decide (CreditCard.id c = card_id))
          (credit_cards s) with
  | None => (HTTPException 404 "Card not found", s)
  | Some card =>
      match List.find (wallet_entry (User.id current_user) card_id)
              (user_cards (core s)) with
      | Some _ => (HTTPException 400 "Card already in wallet", s)
      | None =>
          let user_card :=
            UserCard.mk uuid4 (User.id current_user) (CreditCard.id card)
              (CreditCard.name card) (CreditCard.issuer card)
              (CreditCard.color card) (CreditCard.rewards card) utcnow in
          (Returned user_card,
           with_user_cards s (user_cards (core s) ++ [user_card]))
      end
  end.

(** [GET /user-cards] *)
Definition get_user_cards (current_user : User.t) (s : Store) : list UserCard.t :=
  wallet (User.id current_user) (core s).

(** [delete_one]: the collection without its first matching document, and
    [deleted_count]. *)
Fixpoint delete_one {A} (f : A → bool) (l : list A) : list A * Z :=
  match l with
  | [] => ([], 0)
  | x :: l' =>
      if f x then (l', 1)
      else let '(rest, n) := delete_one f l' in (x :: rest, n)
  end.

(** [DELETE /user-cards/{card_id}] *)
Definition remove_user_card (card_id : string) (current_user : User.t)
    (s : Store) : Http string * Store :=
  let '(rest, deleted_count) :=
    delete_one (wallet_entry (User.id current_user) card_id)
      (user_cards (core s)) in
  if decide (deleted_count = 0)
  then (HTTPException 404 "Card not found in wallet", with_user_cards s rest)
  else (Returned "Card removed from wallet", with_user_cards s rest).

(** [POST /location/check] on the whole database. *)
Definition location_check (env : Env) (location : LocationCheck.t)
    (current_user : User.t) (s : Store) : Response * Store :=
  let '(r, d) := handle (mkCall env location current_user) (core s) in
  (r, mkStore (users s) (credit_cards s) d).

(** *** Requests of one signed-in user, served in turn *)

Inductive Request :=
  | GetCards (uuid4 : nat → string)
  | AddCard (uuid4 : string) (utcnow : Z) (card_id : string)
  | GetWallet
  | RemoveCard (card_id : string)
  | CheckLocation (env : Env) (location : LocationCheck.t).

Inductive Answer :=
  | Cards (cards : list CreditCard.t)
  | Added (r : Http UserCard.t)
  | Wallet (cards : list UserCard.t)
  | Removed (r : Http string)
  | Located (r : Response).

Definition serve (current_user : User.t) (q : Request) (s : Store)
    : Answer * Store :=
  match q with
  | GetCards uuid4 =>
      let '(cards, s') := get_all_cards uuid4 s in (Cards cards, s')
  | AddCard uuid4 utcnow card_id =>
      let '(r, s') := add_user_card uuid4 utcnow card_id current_user s in
      (Added r, s')
  | GetWallet => (Wallet (get_user_cards current_user s), s)
  | RemoveCard card_id =>
      let '(r, s') := remove_user_card card_id current_user s in (Removed r, s')
  | CheckLocation env location =>
      let '(r, s') := location_check env location current_user s in
      (Located r, s')
  end.

(** Requests of any users, in the order they are served. *)
Fixpoint serve_all (qs : list (User.t * Request)) (s : Store)
    : list Answer * Store :=
  match qs with
  | [] => ([], s)
  | (u, q) :: qs' =>
      let '(a, s') := serve u q s in
      let '(rest, s'') := serve_all qs' s' in
      (a :: rest, s'')
  end.

Definition empty_store : Store := mkStore [] [] (mkDb [] [] []).

(** A card whose every rate is positive and that has a catch-all key. *)
Definition pays_everywhere (rewards : gmap string Z) : Prop :=
  map_Forall (λ _ v, 0 < v) rewards
  ∧ (is_Some (rewards !! "everything") ∨ is_Some (rewards !! "general")).

(** The ['recommendation'] key is present. *)
Definition is_recommended (r : Response) : bool :=
  match r with
  | Recommended _ => true
  | _ => false
  end.

(** The documents of one user in the wallet and in the log. *)
Definition own_cards (user_id : string) (d : Db) : list UserCard.t :=
  List.filter (λ c, bool_decide (UserCard.user_id c = user_id)) (user_cards d).

Definition own_logs (user_id : string) (d : Db) : list NotificationLog.t :=
  List.filter (λ l, bool_decide (NotificationLog.user_id l = user_id))
    (notification_logs d).

(** No user holds the same catalogue card twice. *)
Definition wallet_unique (cards : list UserCard.t) : Prop :=
  NoDup (map (λ c, (UserCard.user_id c, UserCard.card_id c)) cards).

(** A wallet entry that copies a card of the catalogue. *)
Definition copied_from (catalogue : list CreditCard.t) (c : UserCard.t) : Prop :=
  ∃ card, card ∈ catalogue
          ∧ UserCard.card_id c = CreditCard.id card
          ∧ UserCard.card_name c = CreditCard.name card
          ∧ UserCard.card_issuer c = CreditCard.issuer card
          ∧ UserCard.card_color c = CreditCard.color card
          ∧ UserCard.rewards c = CreditCard.rewards card.

(** What holds of every store the routes can build from an empty one. *)
Definition store_inv (s : Store) : Prop :=
  wallet_unique (user_cards (core s))
  ∧ Forall (copied_from (credit_cards s)) (user_cards (core s))
  ∧ Forall (λ card, pays_everywhere (CreditCard.rewards card)) (credit_cards s).

(** A small catalogue and a store that holds it. *)
Definition citi_double_cash : CreditCard.t :=
  CreditCard.mk "card-1" "Double Cash" "Citi" None {[ "everything" := 2 ]}
    0%R "#003B71".

Definition shop : Store := mkStore [] [citi_double_cash] (mkDb [chevron] [] []).

Definition alice_double_cash : UserCard.t :=
  UserCard.mk "uc-1" "user-1" "card-1" "Double Cash" "Citi" "#003B71"
    {[ "everything" := 2 ]} 7.

Definition scene_catalogue : list CreditCard.t :=
  [ CreditCard.mk "Blue Cash" "Blue Cash" "issuer" None
      {[ "gas" := 3; "general" := 1 ]} 0%R "#000000";
    CreditCard.mk "Double Cash" "Double Cash" "issuer" None
      {[ "everything" := 2 ]} 0%R "#000000" ].

Definition scene_store : Store := mkStore [] scene_catalogue scene.

(** *** Accounts and tokens *)

Module UserSignup.
Record t := mk {
  name : string;
  email : string;
  phone : string;
  password : string
}.
End UserSignup.

Module UserLogin.
Record t := mk {
  email : string;
  password : string
}.
End UserLogin.

(** The body both [signup] and [login] return: the token and the public
    fields of the user. *)
Record AuthReply := mkAuthReply {
  reply_token : string;
  reply_user : User.t
}.

(** What [jwt.decode] does with a token at a given time: it returns the
    payload, of which only the ['user_id'] key (possibly absent) is read,
    or raises. *)
Inductive Decoded :=
  | Payload (user_id : option string)
  | ExpiredSignature
  | DecodeError.

(** The exceptions that can reach the [except] clauses of
    [get_current_user]. *)
Inductive Raised :=
  | ExpiredSignatureError
  | OtherException
  | RaisedHTTP (status_code : Z) (detail : string).

(** What one [signup] draws from outside: the id and creation time of the
    new [User], the salt of [bcrypt.gensalt()], the clock reading of
    [create_token]. *)
Record SignupEnv := mkSignupEnv {
  signup_uuid4 : string;
  signup_created : Z;
  signup_salt : string;
  signup_now : Z
}.

(** [timedelta(days=d)] in microseconds. *)
Definition timedelta_days (d : Z) : Z := d * 24 * 3600 * 1000000.

Section Accounts.
(** [bcrypt.hashpw], [bcrypt.checkpw], and [jwt.encode] / [jwt.decode] with
    the configured secret and algorithm; [jwt_encode] takes the two payload
    fields, [jwt_decode] the token and the current time. *)
Variable hashpw : string → string → string.
Variable checkpw : string → string → bool.
Variable jwt_encode : string → Z → string.
Variable jwt_decode : string → Z → Decoded.

Definition hash_password (salt password : string) : string :=
  hashpw password salt.

Definition verify_password (password password_hash : string) : bool :=
  checkpw password password_hash.

Definition create_token (utcnow : Z) (user_id : string) : string :=
  jwt_encode user_id (utcnow + timedelta_days 30).

(** The [try] block of [get_current_user]. *)
Definition current_user_try (utcnow : Z) (token : string) (s : Store)
    : Raised + User.t :=
  match jwt_decode token utcnow with
  | ExpiredSignature => inl ExpiredSignatureError
  | DecodeError => inl OtherException
  | Payload user_id =>
      match List.find (λ u, bool_decide (Some (UserDoc.id u) = user_id))
              (users s) with
      | None => inl (RaisedHTTP 401 "User not found")
      | Some user => inr (to_user user)
      end
  end.

(** [get_current_user]: the [try] block under its two [except] clauses,
    the second of which catches every [Exception]. *)
Definition get_current_user (utcnow : Z) (token : string) (s : Store)
    : Http User.t :=
  match current_user_try utcnow token s with
  | inr user => Returned user
  | inl ExpiredSignatureError => HTTPException 401 "Token expired"
  | inl _ => HTTPException 401 "Invalid token"
  end.

(** [POST /auth/signup] *)
Definition signup (env : SignupEnv) (user_data : UserSignup.t) (s : Store)
    : Http AuthReply * Store :=
  match List.find (λ u, bool_decide (UserDoc.email u = UserSignup.email user_data))
          (users s) with
  | Some _ => (HTTPException 400 "Email already registered", s)
  | None =>
      let user :=
        UserDoc.mk (signup_uuid4 env) (UserSignup.name user_data)
          (UserSignup.email user_data) (UserSignup.phone user_data)
          (hash_password (signup_salt env) (UserSignup.password user_data))
          (signup_created env) in
      let token := create_token (signup_now env) (UserDoc.id user) in
      (Returned (mkAuthReply token (to_user user)),
       mkStore (users s ++ [user]) (credit_cards s) (core s))
  end.

(** [POST /auth/login]; it reads the database and writes nothing. *)
Definition login (utcnow : Z) (credentials : UserLogin.t) (s : Store)
    : Http AuthReply :=
  match List.find (λ u, bool_decide (UserDoc.email u = UserLogin.email credentials))
          (users s) with
  | None => HTTPException 401 "Invalid credentials"
  | Some user =>
      if negb (verify_password (UserLogin.password credentials)
                 (UserDoc.password_hash user))
      then HTTPException 401 "Invalid credentials"
      else Returned (mkAuthReply (create_token utcnow (UserDoc.id user))
                       (to_user user))
  end.

(** Sign-ups served in turn. *)
Fixpoint signup_all (reqs : list (SignupEnv * UserSignup.t)) (s : Store)
    : list (Http AuthReply) * Store :=
  match reqs with
  | [] => ([], s)
  | (env, user_data) :: reqs' =>
      let '(r, s') := signup env user_data s in
      let '(rs, s'') := signup_all reqs' s' in
      (r :: rs, s'')
  end.
End Accounts.

(** Stand-ins for the two libraries, to run the routes on examples: the
    hash is the password itself, the token is the user id, and a token
    never expires. *)
Definition toy_hashpw (password salt : string) : string := password.
Definition toy_checkpw (password password_hash : string) : bool :=
  bool_decide (password = password_hash).
Definition toy_jwt_encode (user_id : string) (exp : Z) : string := user_id.
Definition toy_jwt_decode (token : string) (utcnow : Z) : Decoded :=
  Payload (Some token).

Definition alice_signup : UserSignup.t :=
  UserSignup.mk "Alice" "alice@example.com" "555-0100" "correct horse".

Definition alice_env : SignupEnv := mkSignupEnv "user-1" 0 "salt" 0.

(** * Proofs *)

(** ** Geo module *)

Section GeoFacts.
Local Open Scope R_scope.

Lemma sin_half_sq x : sin (x / 2) ^ 2 = (1 - cos x) / 2.
Proof.
  replace x with (2 * (x / 2)) at 2 by lra.
  rewrite cos_2a_sin. lra.
Qed.

Lemma sin_sq_unit x : 0 <= sin x ^ 2 <= 1.
Proof. pose proof (SIN_bound x) as [? ?]. nra. Qed.

(** The haversine term is a convex mix of [sin²(Δφ/2)] and
    [(1 + cos(φ1 + φ2)) / 2], both in the unit interval. *)
Lemma hav_a_range lat1 lon1 lat2 lon2 : 0 <= hav_a lat1 lon1 lat2 lon2 <= 1.
Proof.
  unfold hav_a.
  set (s := sin (radians (lon2 - lon1) / 2) ^ 2).
  assert (Hs : 0 <= s <= 1) by apply sin_sq_unit.
  rewrite sin_half_sq.
  replace (radians (lat2 - lat1)) with (radians lat2 - radians lat1)
    by (unfold radians; lra).
  rewrite cos_minus.
  pose proof (cos_plus (radians lat1) (radians lat2)) as Hp.
  pose proof (cos_minus (radians lat2) (radians lat1)) as Hm.
  pose proof (COS_bound (radians lat1 + radians lat2)) as [? ?].
  pose proof (COS_bound (radians lat2 - radians lat1)) as [? ?].
  set (c1 := cos (radians lat1)) in *. set (c2 := cos (radians lat2)) in *.
  set (s1 := sin (radians lat1)) in *. set (s2 := sin (radians lat2)) in *.
  destruct Hs. split; nra.
Qed.

Lemma atan_nonneg x : 0 <= x -> 0 <= atan x.
Proof.
  intros [H | <-].
  - left. rewrite <- atan_0. by apply atan_increasing.
  - rewrite atan_0. lra.
Qed.

Lemma atan2_nonneg y x : 0 <= y -> 0 <= x -> 0 <= atan2 y x.
Proof.
  intros Hy Hx. unfold atan2. pose proof PI_RGT_0.
  destruct (Rlt_dec 0 x).
  - apply atan_nonneg. unfold Rdiv. apply Rmult_le_pos; [done |].
    left. by apply Rinv_0_lt_compat.
  - destruct (Rlt_dec x 0); [lra |].
    destruct (Rlt_dec 0 y); [lra |].
    destruct (Rlt_dec y 0); lra.
Qed.

Lemma hav_a_sym lat1 lon1 lat2 lon2 :
  hav_a lat1 lon1 lat2 lon2 = hav_a lat2 lon2 lat1 lon1.
Proof.
  unfold hav_a. rewrite !sin_half_sq.
  replace (radians (lat1 - lat2)) with (- radians (lat2 - lat1))
    by (unfold radians; lra).
  replace (radians (lon1 - lon2)) with (- radians (lon2 - lon1))
    by (unfold radians; lra).
  rewrite !cos_neg. lra.
Qed.

Lemma hav_a_same lat lon : hav_a lat lon lat lon = 0.
Proof.
  unfold hav_a.
  replace (radians (lat - lat) / 2) with 0 by (unfold radians; lra).
  replace (radians (lon - lon) / 2) with 0 by (unfold radians; lra).
  rewrite sin_0. lra.
Qed.

Lemma distance_nonneg lat1 lon1 lat2 lon2 :
  0 <= calculate_distance lat1 lon1 lat2 lon2.
Proof.
  unfold calculate_distance.
  pose proof (atan2_nonneg (sqrt (hav_a lat1 lon1 lat2 lon2))
                (sqrt (1 - hav_a lat1 lon1 lat2 lon2)) (sqrt_pos _) (sqrt_pos _)).
  nra.
Qed.

Lemma distance_sym lat1 lon1 lat2 lon2 :
  calculate_distance lat1 lon1 lat2 lon2 = calculate_distance lat2 lon2 lat1 lon1.
Proof. unfold calculate_distance. by rewrite hav_a_sym. Qed.

Lemma distance_same lat lon : calculate_distance lat lon lat lon = 0.
Proof.
  unfold calculate_distance. rewrite hav_a_same, Rminus_0_r, sqrt_0, sqrt_1.
  unfold atan2. destruct (Rlt_dec 0 1); [| lra].
  replace (0 / 1) with 0 by lra. rewrite atan_0. lra.
Qed.

(** A quarter of a great circle: from the equator's origin to 90 degrees
    east. *)
Lemma distance_quarter : calculate_distance 0 0 0 90 = 6371000 * (PI / 2).
Proof.
  assert (Ha : hav_a 0 0 0 90 = 1 / 2).
  { unfold hav_a.
    replace (radians (0 - 0) / 2) with 0 by (unfold radians; lra).
    replace (radians 0) with 0 by (unfold radians; lra).
    replace (radians (90 - 0) / 2) with (PI / 4) by (unfold radians; lra).
    rewrite sin_0, cos_0, sin_PI4.
    assert (Hq : sqrt 2 * sqrt 2 = 2) by (apply sqrt_sqrt; lra).
    assert (Hp : 0 < sqrt 2) by (apply sqrt_lt_R0; lra).
    field_simplify; [| lra]. simpl. rewrite Rmult_1_r, Hq. lra. }
  unfold calculate_distance. rewrite Ha.
  replace (1 - 1 / 2) with (1 / 2) by lra.
  assert (Hp : 0 < sqrt (1 / 2)) by (apply sqrt_lt_R0; lra).
  unfold atan2. destruct (Rlt_dec 0 (sqrt (1 / 2))); [| lra].
  replace (sqrt (1 / 2) / sqrt (1 / 2)) with 1 by (field; lra).
  rewrite atan_1. lra.
Qed.

(** Shifting the difference of longitudes by a full turn leaves the
    haversine term as it is. *)
Lemma sin_half_sq_turn x : sin ((x - 2 * PI) / 2) ^ 2 = sin (x / 2) ^ 2.
Proof.
  rewrite !sin_half_sq, cos_minus, cos_2PI, sin_2PI. lra.
Qed.

Lemma hav_a_turn lat1 lon1 lat2 lon2 :
  hav_a lat1 (lon1 + 360) lat2 lon2 = hav_a lat1 lon1 lat2 lon2.
Proof.
  unfold hav_a.
  replace (radians (lon2 - (lon1 + 360))) with (radians (lon2 - lon1) - 2 * PI)
    by (unfold radians; lra).
  by rewrite sin_half_sq_turn.
Qed.
End GeoFacts.

Section GeoBounds.
Local Open Scope R_scope.

Lemma hav_a_ge_meridian lat1 lon1 lat2 lon2 :
  -90 <= lat1 <= 90 → -90 <= lat2 <= 90 →
  sin (radians (lat2 - lat1) / 2) ^ 2 <= hav_a lat1 lon1 lat2 lon2.
Proof.
  intros H1 H2. unfold hav_a.
  assert (Hc1 : 0 <= cos (radians lat1)).
  { apply cos_ge_0; unfold radians; pose proof PI_RGT_0; nra. }
  assert (Hc2 : 0 <= cos (radians lat2)).
  { apply cos_ge_0; unfold radians; pose proof PI_RGT_0; nra. }
  pose proof (sin_sq_unit (radians (lon2 - lon1) / 2)) as [Hs _].
  pose proof (Rmult_le_pos _ _ (Rmult_le_pos _ _ Hc1 Hc2) Hs). lra.
Qed.

(** [atan2 (sqrt a) (sqrt (1 - a))] is the angle whose squared sine is [a]:
    it is at least any first-quadrant angle whose squared sine is at most
    [a]. *)
Lemma atan2_ge_angle theta a :
  0 <= theta < PI / 2 → sin theta ^ 2 <= a <= 1 →
  theta <= atan2 (sqrt a) (sqrt (1 - a)).
Proof.
  intros [Ht0 Ht1] [Ha0 Ha1].
  assert (Hsin : 0 <= sin theta) by (apply sin_ge_0; pose proof PI_RGT_0; lra).
  assert (Hcos : 0 < cos theta) by (apply cos_gt_0; lra).
  assert (Hsq : sin theta ^ 2 + cos theta ^ 2 = 1).
  { pose proof (sin2_cos2 theta) as H. unfold Rsqr in H. lra. }
  assert (Hy : sin theta <= sqrt a).
  { rewrite <- (sqrt_pow2 (sin theta)) by done. by apply sqrt_le_1_alt. }
  assert (Hx : sqrt (1 - a) <= cos theta).
  { rewrite <- (sqrt_pow2 (cos theta)) by lra. apply sqrt_le_1_alt. lra. }
  pose proof (sqrt_pos (1 - a)) as Hx0.
  unfold atan2. destruct (Rlt_dec 0 (sqrt (1 - a))) as [Hpos | Hnpos].
  - rewrite <- (atan_tan theta) at 1 by lra.
    assert (Hle : tan theta <= sqrt a / sqrt (1 - a)).
    { unfold tan. apply Rmult_le_reg_r with (r := cos theta * sqrt (1 - a)).
      - by apply Rmult_lt_0_compat.
      - field_simplify; [| lra | lra].
        pose proof (Rmult_le_compat_r _ _ _ Hx0 Hy).
        pose proof (Rmult_le_compat_l _ _ _ (sqrt_pos a) Hx). lra. }
    destruct Hle as [Hlt | ->]; [left; by apply atan_increasing | lra].
  - assert (Hz : sqrt (1 - a) = 0) by lra.
    destruct (Rlt_dec (sqrt (1 - a)) 0); [lra |].
    apply sqrt_eq_0 in Hz; [| lra].
    replace a with 1 by lra. rewrite sqrt_1.
    destruct (Rlt_dec 0 1); lra.
Qed.

(** The distance is at least the arc between the two parallels. *)
Lemma distance_ge_meridian lat1 lon1 lat2 lon2 delta :
  -90 <= lat1 <= 90 → -90 <= lat2 <= 90 →
  0 <= delta < 180 → (lat2 - lat1 = delta ∨ lat1 - lat2 = delta) →
  6371000 * radians delta <= calculate_distance lat1 lon1 lat2 lon2.
Proof.
  intros H1 H2 Hd Hdelta. unfold calculate_distance.
  pose proof (hav_a_ge_meridian lat1 lon1 lat2 lon2 H1 H2) as Hge.
  pose proof (hav_a_range lat1 lon1 lat2 lon2) as [_ Hle].
  assert (Hsin : sin (radians (lat2 - lat1) / 2) ^ 2 = sin (radians delta / 2) ^ 2).
  { destruct Hdelta as [-> | Hdelta]; [done |].
    replace (radians (lat2 - lat1) / 2) with (- (radians delta / 2))
      by (unfold radians; rewrite <- Hdelta; lra).
    rewrite sin_neg. lra. }
  rewrite Hsin in Hge.
  assert (Hth : 0 <= radians delta / 2 < PI / 2).
  { unfold radians. pose proof PI_RGT_0. split; nra. }
  pose proof (atan2_ge_angle _ _ Hth (conj Hge Hle)). lra.
Qed.

(** A degree of latitude is more than 70 km of arc. *)
Lemma meridian_arc_lower delta :
  0 <= delta → 70000 * delta <= 6371000 * radians delta.
Proof.
  intros Hd. unfold radians. pose proof PI2_1. nra.
Qed.
End GeoBounds.

(** ** Reward matcher *)

Lemma best_loop_snoc category cards c st :
  best_loop category (cards ++ [c]) st
  = best_step category (best_loop category cards st) c.
Proof. unfold best_loop. by rewrite fold_left_app. Qed.

Lemma best_loop_inv category b0 r0 cards :
  best_inv category b0 r0 cards (best_loop category cards (b0, r0)).
Proof.
  unfold best_inv.
  induction cards as [| c cards IH] using rev_ind.
  - left. split; [done | constructor].
  - rewrite best_loop_snoc. unfold best_step.
    destruct IH as [[-> Hall] | (i & b & Hi & -> & Hlt & Hall & Hbefore)];
      simpl; case_decide.
    + right. exists (length cards), c. split_and!.
      * by rewrite lookup_app_r, Nat.sub_diag.
      * done.
      * lia.
      * apply Forall_app. split; [| by repeat constructor].
        eapply Forall_impl; [exact Hall |]. simpl. intros; lia.
      * intros j c' Hj Hc'. rewrite lookup_app_l in Hc' by done.
        rewrite Forall_lookup in Hall. specialize (Hall _ _ Hc').
        simpl in Hall. lia.
    + left. split; [done |]. apply Forall_app. split; [done |].
      repeat constructor. lia.
    + right. exists (length cards), c. split_and!.
      * by rewrite lookup_app_r, Nat.sub_diag.
      * done.
      * lia.
      * apply Forall_app. split; [| by repeat constructor].
        eapply Forall_impl; [exact Hall |]. simpl. intros; lia.
      * intros j c' Hj Hc'. rewrite lookup_app_l in Hc' by done.
        rewrite Forall_lookup in Hall. specialize (Hall _ _ Hc').
        simpl in Hall. lia.
    + right. exists i, b. split_and!.
      * by apply lookup_app_l_Some.
      * done.
      * done.
      * apply Forall_app. split; [done |]. repeat constructor. lia.
      * intros j c' Hj Hc'. apply lookup_lt_Some in Hi.
        rewrite lookup_app_l in Hc' by lia. eauto.
Qed.

(** The matcher's answer: nothing when no rate is positive, else the first
    card that reaches the greatest rate. *)
Lemma best_card_spec user_cards category :
  let rate c := card_rate (UserCard.rewards c) category in
  match get_best_card_for_category user_cards category with
  | None => Forall (λ c, rate c ≤ 0) user_cards
  | Some (best_card, best_rate) =>
      0 < best_rate ∧ best_rate = rate best_card
      ∧ Forall (λ c, rate c ≤ best_rate) user_cards
      ∧ ∃ i, user_cards !! i = Some best_card
             ∧ ∀ j c, (j < i)%nat → user_cards !! j = Some c → rate c < best_rate
  end.
Proof.
  intros rate. unfold get_best_card_for_category.
  destruct (best_loop_inv category None 0 user_cards)
    as [[-> Hall] | (i & b & Hi & -> & Hlt & Hall & Hbefore)].
  - done.
  - split_and!; [done | done | done |]. by exists i.
Qed.

Lemma card_rate_exact rewards category v :
  rewards !! lower category = Some v → card_rate rewards category = v.
Proof. intros H. unfold card_rate. by rewrite H. Qed.


(** ** Nearest POI *)

Lemma nearest_loop_snoc location pois p st :
  nearest_loop location (pois ++ [p]) st
  = nearest_step location (nearest_loop location pois st) p.
Proof. unfold nearest_loop. by rewrite fold_left_app. Qed.

Lemma nearest_loop_inv location pois :
  nearest_inv location pois (nearest_loop location pois (None, Infinity)).
Proof.
  unfold nearest_inv.
  induction pois as [| p pois IH] using rev_ind.
  - left. split; [done | constructor].
  - rewrite nearest_loop_snoc. unfold nearest_step.
    destruct IH as [[-> Hall] | (i & b & Hi & -> & Hin & Hall & Hbefore)];
      simpl; case_decide as Hd.
    + destruct Hd as [Hd _]. right. exists (length pois), p. split_and!.
      * by rewrite lookup_app_r, Nat.sub_diag.
      * done.
      * done.
      * apply Forall_app. split.
        -- eapply Forall_impl; [exact Hall |]. simpl. intros q Hq Hq'. done.
        -- apply Forall_singleton. intros _. apply Rle_refl.
      * intros j q Hj Hq Hq'. rewrite lookup_app_l in Hq by done.
        rewrite Forall_lookup in Hall. by destruct (Hall _ _ Hq).
    + left. split; [done |]. apply Forall_app. split; [done |].
      apply Forall_singleton. intros Hp. apply Hd. done.
    + destruct Hd as [Hd Hlt]. right. exists (length pois), p. split_and!.
      * by rewrite lookup_app_r, Nat.sub_diag.
      * done.
      * done.
      * apply Forall_app. split.
        -- eapply Forall_impl; [exact Hall |]. simpl. intros q Hq Hq'.
           specialize (Hq Hq'). lra.
        -- apply Forall_singleton. intros _. apply Rle_refl.
      * intros j q Hj Hq Hq'. rewrite lookup_app_l in Hq by done.
        rewrite Forall_lookup in Hall. specialize (Hall _ _ Hq Hq'). lra.
    + right. exists i, b. split_and!.
      * by apply lookup_app_l_Some.
      * done.
      * done.
      * apply Forall_app. split; [done |]. apply Forall_singleton. intros Hp.
        apply Rnot_lt_le. intros Hlt. apply Hd. done.
      * intros j q Hj Hq. apply lookup_lt_Some in Hi.
        rewrite lookup_app_l in Hq by lia. eauto.
Qed.

(** The loop's answer: nothing when no POI has the location in its
    geofence, else the first of the nearest such POIs. *)
Lemma nearest_poi_spec location pois :
  match nearest_poi location pois with
  | None => Forall (λ q, ¬ in_geofence location q) pois
  | Some p =>
      in_geofence location p
      ∧ Forall (λ q, in_geofence location q →
                     (distance_to location p <= distance_to location q)%R) pois
      ∧ ∃ i, pois !! i = Some p
             ∧ ∀ j q, (j < i)%nat → pois !! j = Some q → in_geofence location q →
                      (distance_to location p < distance_to location q)%R
  end.
Proof.
  unfold nearest_poi.
  destruct (nearest_loop_inv location pois)
    as [[-> Hall] | (i & b & Hi & -> & Hin & Hall & Hbefore)]; simpl.
  - done.
  - split_and!; [done | done |]. by exists i.
Qed.

Lemma nearest_poi_single location p :
  in_geofence location p → nearest_poi location [p] = Some p.
Proof.
  intros Hin. unfold nearest_poi, nearest_loop, nearest_step. simpl.
  case_decide as Hd; [done |]. destruct Hd. done.
Qed.

(** ** Running the handler *)

Lemma insert_all_run pois s :
  insert_all pois s
  = (tt, mkSt (mkDb (poi_locations (db s) ++ pois) (user_cards (db s))
                    (notification_logs (db s)))
              (trace s ++ map InsertPoi pois)).
Proof.
  revert s. induction pois as [| p pois IH]; intros [[pl uc nl] tr]; simpl.
  - by rewrite !app_nil_r.
  - unfold mbind, M_bind, insert_poi, tell, get_db, put_db, mret, M_ret. simpl.
    unfold mbind, M_bind. simpl.
    rewrite IH. simpl. by rewrite <- !app_assoc.
Qed.

Lemma seed_pois_length uuid4 : length (seed_pois uuid4) = 20%nat.
Proof. unfold seed_pois. by rewrite length_imap. Qed.

Lemma take_nil_inv {A} (l : list A) : take 1000 l = [] → l = [].
Proof. by destruct l. Qed.

Lemma loaded_pois_nonempty env d : loaded_pois env d ≠ [].
Proof.
  unfold loaded_pois, seeded.
  destruct (take 1000 (poi_locations d)) eqn:Ht.
  - apply take_nil_inv in Ht. rewrite Ht. cbn [app poi_locations]. intros Hn.
    apply (f_equal length) in Hn. rewrite length_take, seed_pois_length in Hn.
    simpl in Hn. lia.
  - by rewrite Ht.
Qed.

(** Both sides list the same operations, bracketed differently. *)
Ltac trace_eq :=
  cbn [db trace poi_locations user_cards notification_logs];
  repeat (rewrite <- ?app_assoc; cbn [app]);
  reflexivity.

Lemma check_location_run env location current_user s :
  check_location env location current_user s =
  let d := seeded env (db s) in
  let all_pois := loaded_pois env (db s) in
  let tr := (trace s ++ load_ops env (db s) ++ distance_ops location all_pois) in
  match nearest_poi location all_pois with
  | None => (NotFound, mkSt d tr)
  | Some nearby_poi =>
      let since := utcnow_throttle env - timedelta_hours 4 in
      let tr := (tr ++ [FindOneLog (User.id current_user)
                          (POILocation.id nearby_poi) since]) in
      match List.find (log_matches (User.id current_user)
                         (POILocation.id nearby_poi) since)
              (notification_logs d) with
      | Some _ =>
          (Throttled (POILocation.name nearby_poi)
             (POILocation.category nearby_poi), mkSt d tr)
      | None =>
          let tr := (tr ++ [FindUserCards (User.id current_user)]) in
          match wallet (User.id current_user) d with
          | [] =>
              (NoCards (POILocation.name nearby_poi)
                 (POILocation.category nearby_poi), mkSt d tr)
          | cards =>
              let tr := (tr ++ [BestCard (POILocation.category nearby_poi)]) in
              match get_best_card_for_category cards
                      (POILocation.category nearby_poi) with
              | None =>
                  (NoMatch (POILocation.name nearby_poi)
                     (POILocation.category nearby_poi), mkSt d tr)
              | Some (best_card, best_rate) =>
                  let log :=
                    NotificationLog.mk (uuid4_log env) (User.id current_user)
                      (POILocation.id nearby_poi)
                      (UserCard.card_name best_card) (utcnow_log env) in
                  (Recommended
                     (Recommendation.mk
                        (POILocation.name nearby_poi)
                        (POILocation.category nearby_poi)
                        (UserCard.card_name best_card)
                        (reward_text best_rate)
                        ("Hey, you're at " +:+ POILocation.name nearby_poi
                         +:+ "! Use " +:+ UserCard.card_name best_card
                         +:+ " to get " +:+ reward_text best_rate +:+ ".")),
                   mkSt (mkDb (poi_locations d) (user_cards d)
                           (notification_logs d ++ [log]))
                        (tr ++ [InsertLog log]))
              end
          end
      end
  end.
Proof.
  destruct s as [[pl uc nl] tr].
  unfold check_location, loaded_pois, seeded, load_ops, wallet.
  unfold find_pois, initialize_poi_locations, find_one_log, find_user_cards,
    insert_log, tell, get_db, put_db.
  unfold mbind, M_bind, mret, M_ret. cbn [db trace poi_locations].
  destruct (take 1000 pl) as [| p0 pl0] eqn:Ht.
  - apply take_nil_inv in Ht. subst pl. rewrite insert_all_run.
    cbn [db trace poi_locations user_cards notification_logs app].
    fold (distance_ops location (take 1000 (seed_pois (uuid4_poi env)))).
    destruct (nearest_poi _ _) as [nearby_poi |]; [| trace_eq].
    destruct (List.find _ _); [trace_eq |].
    destruct (take 1000 (List.filter _ _)) as [| c0 cs0];
      [trace_eq |].
    destruct (get_best_card_for_category _ _) as [[best_card best_rate] |];
      trace_eq.
  - cbn [db trace poi_locations user_cards notification_logs app].
    rewrite Ht.
    fold (distance_ops location (p0 :: pl0)).
    destruct (nearest_poi _ _) as [nearby_poi |]; [| trace_eq].
    destruct (List.find _ _); [trace_eq |].
    destruct (take 1000 (List.filter _ _)) as [| c0 cs0];
      [trace_eq |].
    destruct (get_best_card_for_category _ _) as [[best_card best_rate] |];
      trace_eq.
Qed.

(** ** Facts about one call *)

Lemma seeded_logs env d : notification_logs (seeded env d) = notification_logs d.
Proof. unfold seeded. by destruct (take 1000 (poi_locations d)). Qed.

Lemma seeded_cards env d : user_cards (seeded env d) = user_cards d.
Proof. unfold seeded. by destruct (take 1000 (poi_locations d)). Qed.

Lemma wallet_seeded env d u : wallet u (seeded env d) = wallet u d.
Proof. unfold wallet. by rewrite seeded_cards. Qed.

(** Once loaded, the catalogue is read back unchanged. *)
Lemma seeded_idem env env' d : seeded env' (seeded env d) = seeded env d.
Proof.
  unfold seeded at 1. fold (loaded_pois env d).
  pose proof (loaded_pois_nonempty env d). by destruct (loaded_pois env d).
Qed.

Lemma loaded_pois_idem env env' d :
  loaded_pois env' (seeded env d) = loaded_pois env d.
Proof. unfold loaded_pois at 1. by rewrite seeded_idem. Qed.

Lemma geo_phase_insert pois : forallb is_geo_phase (map InsertPoi pois) = true.
Proof. induction pois; simpl; done. Qed.

Lemma geo_phase_load env d : forallb is_geo_phase (load_ops env d) = true.
Proof.
  unfold load_ops. destruct (take 1000 (poi_locations d)); [| done].
  cbn [forallb is_geo_phase andb]. rewrite forallb_app, geo_phase_insert. done.
Qed.

Lemma geo_phase_distance location pois :
  forallb is_geo_phase (distance_ops location pois) = true.
Proof. induction pois; simpl; done. Qed.

Lemma geo_phase_prefix env d location pois :
  forallb is_geo_phase (load_ops env d ++ distance_ops location pois) = true.
Proof. by rewrite forallb_app, geo_phase_load, geo_phase_distance. Qed.




(** The five ways a call can end. *)
Ltac handler_cases :=
  unfold run; rewrite check_location_run; cbn zeta; cbn [db trace app];
  destruct (nearest_poi _ _) as [sel |] eqn:Hsel;
    [ destruct (List.find _ _) as [recent |] eqn:Hrecent;
      [ | destruct (wallet _ _) as [| c0 cs0] eqn:Hwallet;
          [ | destruct (get_best_card_for_category _ _)
                as [[bc br] |] eqn:Hbest ] ]
    | ].


Lemma check_location_merchant env location current_user d p :
  nearest_poi location (loaded_pois env d) = Some p →
  merchant (fst (run (check_location env location current_user) d))
  = Some (POILocation.name p).
Proof.
  intros Hp. handler_cases; simplify_eq; done.
Qed.

Lemma check_location_no_merchants env location current_user d :
  fst (run (check_location env location current_user) d) = NotFound
  ↔ nearest_poi location (loaded_pois env d) = None.
Proof. handler_cases; done. Qed.

(** Encoding keeps the order of dates, and moves with whole
    milliseconds. *)
Lemma bson_datetime_mono t t' : t ≤ t' → bson_datetime t ≤ bson_datetime t'.
Proof.
  intros Hle. unfold bson_datetime.
  pose proof (Z.div_le_mono t t' 1000). lia.
Qed.

Lemma bson_datetime_add t k :
  bson_datetime (t + k * 1000) = bson_datetime t + k * 1000.
Proof. unfold bson_datetime. rewrite Z.div_add by lia. lia. Qed.

Lemma bson_datetime_le t : bson_datetime t ≤ t < bson_datetime t + 1000.
Proof.
  unfold bson_datetime. pose proof (Z.mod_pos_bound t 1000).
  pose proof (Z.div_mod t 1000). lia.
Qed.


Lemma find_log_some user_id poi_id since logs :
  is_Some (List.find (log_matches user_id poi_id since) logs)
  ↔ ∃ log, log ∈ logs
           ∧ NotificationLog.user_id log = user_id
           ∧ NotificationLog.poi_id log = poi_id
           ∧ bson_datetime (NotificationLog.timestamp log)
             >= bson_datetime since.
Proof.
  split.
  - intros [log Hlog]. apply find_some in Hlog as [Hin Hm].
    exists log. unfold log_matches in Hm.
    apply andb_prop in Hm as [Hm Ht]. apply andb_prop in Hm as [Hu Hp].
    apply bool_decide_eq_true in Hu, Hp, Ht.
    by rewrite list_elem_of_In.
  - intros (log & Hin & Hu & Hp & Ht).
    destruct (List.find _ logs) eqn:Hf; [done |].
    apply list_elem_of_In in Hin.
    pose proof (find_none _ _ Hf log Hin) as Hm.
    unfold log_matches in Hm.
    rewrite !bool_decide_eq_true_2 in Hm by done. done.
Qed.

(** In a trace that opens with the catalogue load and the distance loop,
    followed by the throttle query, a matcher call or a log write comes
    after that query. *)
Lemma after_throttle_query geo f ops i op :
  forallb is_geo_phase geo = true →
  is_find_one_log f = true →
  (geo ++ f :: ops) !! i = Some op →
  is_best_card op || is_insert_log op = true →
  ∃ j op', (j < i)%nat ∧ (geo ++ f :: ops) !! j = Some op'
           ∧ is_find_one_log op' = true.
Proof.
  intros Hgeo Hf Hi Hop.
  destruct (decide (i < length geo)%nat) as [Hlt | Hge].
  - rewrite lookup_app_l in Hi by done.
    rewrite forallb_forall in Hgeo.
    apply list_elem_of_lookup_2, list_elem_of_In, Hgeo in Hi.
    by destruct op.
  - destruct (decide (i = length geo)) as [-> | Hne].
    + rewrite list_lookup_middle in Hi by done. simplify_eq. by destruct op.
    + exists (length geo), f. split_and!; [lia | | done].
      by rewrite list_lookup_middle.
Qed.

Lemma geo_phase_quiet geo i op :
  forallb is_geo_phase geo = true →
  geo !! i = Some op →
  is_best_card op || is_insert_log op = false.
Proof.
  intros Hgeo Hi. rewrite forallb_forall in Hgeo.
  apply list_elem_of_lookup_2, list_elem_of_In, Hgeo in Hi. by destruct op.
Qed.


(** ** The worked scene *)

Lemma at_chevron_in_geofence : in_geofence at_chevron chevron.
Proof.
  unfold in_geofence, distance_to. simpl. rewrite distance_same. lra.
Qed.

Lemma scene_loaded env logs :
  loaded_pois env (mkDb [chevron] [blue_cash; double_cash] logs) = [chevron].
Proof. reflexivity. Qed.

Lemma scene_nearest env logs :
  nearest_poi at_chevron
    (loaded_pois env (mkDb [chevron] [blue_cash; double_cash] logs))
  = Some chevron.
Proof.
  rewrite scene_loaded. apply nearest_poi_single, at_chevron_in_geofence.
Qed.

Lemma scene_wallet logs :
  wallet "user-1" (mkDb [chevron] [blue_cash; double_cash] logs)
  = [blue_cash; double_cash].
Proof. unfold wallet. cbn [user_cards]. vm_compute. reflexivity. Qed.

Lemma scene_best :
  get_best_card_for_category [blue_cash; double_cash] "gas" = Some (blue_cash, 3).
Proof. vm_compute. reflexivity. Qed.

Lemma scene_seeded env logs :
  seeded env (mkDb [chevron] [blue_cash; double_cash] logs)
  = mkDb [chevron] [blue_cash; double_cash] logs.
Proof. reflexivity. Qed.


Lemma scene_reward_text : reward_text 3 = "3.0% back".
Proof. vm_compute. reflexivity. Qed.

(** At the station with nothing recent in the log, the call recommends
    the first card and records it. *)
Lemma scene_recommends env logs :
  List.find (log_matches "user-1" "poi-chevron"
               (utcnow_throttle env - timedelta_hours 4)) logs = None →
  run (check_location env at_chevron alice)
      (mkDb [chevron] [blue_cash; double_cash] logs)
  = (Recommended chevron_rec,
     mkSt (mkDb [chevron] [blue_cash; double_cash]
             (logs ++ [NotificationLog.mk (uuid4_log env) "user-1" "poi-chevron"
                         "Blue Cash" (utcnow_log env)]))
          ([FindPois] ++ distance_ops at_chevron [chevron]
           ++ [FindOneLog "user-1" "poi-chevron"
                 (utcnow_throttle env - timedelta_hours 4);
               FindUserCards "user-1"; BestCard "gas";
               InsertLog (NotificationLog.mk (uuid4_log env) "user-1"
                            "poi-chevron" "Blue Cash" (utcnow_log env))])).
Proof.
  intros Hnone. unfold run. rewrite check_location_run. cbn zeta.
  cbn [db trace app].
  rewrite scene_nearest, scene_seeded, scene_loaded.
  cbn [notification_logs POILocation.id POILocation.category POILocation.name
       chevron User.id alice poi_locations user_cards].
  rewrite Hnone.
  change (wallet "user-1" _) with
    (wallet "user-1" (mkDb [chevron] [blue_cash; double_cash] logs)).
  rewrite scene_wallet, scene_best, scene_reward_text.
  reflexivity.
Qed.

(** With a record inside the window, the call is throttled and writes
    nothing. *)
Lemma scene_throttles env logs log :
  List.find (log_matches "user-1" "poi-chevron"
               (utcnow_throttle env - timedelta_hours 4)) logs = Some log →
  run (check_location env at_chevron alice)
      (mkDb [chevron] [blue_cash; double_cash] logs)
  = (Throttled "Chevron Station" "gas",
     mkSt (mkDb [chevron] [blue_cash; double_cash] logs)
          ([FindPois] ++ distance_ops at_chevron [chevron]
           ++ [FindOneLog "user-1" "poi-chevron"
                 (utcnow_throttle env - timedelta_hours 4)])).
Proof.
  intros Hsome. unfold run. rewrite check_location_run. cbn zeta.
  cbn [db trace app].
  rewrite scene_nearest, scene_seeded, scene_loaded.
  cbn [notification_logs POILocation.id POILocation.category POILocation.name
       chevron User.id alice poi_locations user_cards].
  rewrite Hsome. reflexivity.
Qed.



(** ** The sample catalogue, seen from two places *)

Lemma seed_pois_bounds uuid4 :
  Forall (λ p, (34 <= POILocation.latitude p <= 41)%R
               ∧ (POILocation.radius p <= 250)%R)
         (seed_pois uuid4).
Proof.
  unfold seed_pois, sample_pois. simpl.
  repeat (apply Forall_cons; split; [simpl; lra |]). constructor.
Qed.

(** Portland is hundreds of kilometres north of every sample POI. *)
Lemma portland_outside poi :
  (34 <= POILocation.latitude poi <= 41)%R →
  (POILocation.radius poi <= 250)%R →
  ¬ in_geofence portland poi.
Proof.
  intros Hlat Hrad. unfold in_geofence, distance_to, portland. simpl.
  pose proof (distance_ge_meridian 45.5231 (-122.6765)
                (POILocation.latitude poi) (POILocation.longitude poi)
                (45.5231 - POILocation.latitude poi)) as Hd.
  pose proof (meridian_arc_lower (45.5231 - POILocation.latitude poi)) as Hm.
  lra.
Qed.

Lemma portland_not_found env current_user cards logs :
  fst (run (check_location env portland current_user) (mkDb [] cards logs))
  = NotFound.
Proof.
  apply check_location_no_merchants.
  pose proof (nearest_poi_spec portland (loaded_pois env (mkDb [] cards logs)))
    as Hs.
  destruct (nearest_poi _ _) as [p |]; [| done].
  destruct Hs as (Hin & _ & i & Hi & _).
  change (loaded_pois env (mkDb [] cards logs))
    with (take 1000 (seed_pois (uuid4_poi env))) in Hi.
  apply list_elem_of_lookup_2, subseteq_take in Hi.
  pose proof (seed_pois_bounds (uuid4_poi env)) as Hb.
  rewrite Forall_forall in Hb. destruct (Hb p Hi) as [Hlat Hrad].
  by destruct (portland_outside p).
Qed.






(** From the downtown Starbucks the Chevron station is more than 200 m
    away: out of its geofence. *)
Lemma downtown_outside_chevron :
  ¬ in_geofence (LocationCheck.mk 37.7749 (-122.4194) "user-1") chevron.
Proof.
  unfold in_geofence, distance_to, chevron. simpl.
  pose proof (distance_ge_meridian 37.7749 (-122.4194) 37.7849 (-122.4094)
                0.01) as Hd.
  pose proof (meridian_arc_lower 0.01) as Hm.
  lra.
Qed.

(** ** Sequences of calls *)

(** What a call leaves in the store: the catalogue as loaded, the wallet
    untouched, and the log either as it was or one record longer, the
    latter only when the throttle query found nothing. *)
Lemma handle_store c d :
  let env := call_env c in
  let user_id := User.id (call_user c) in
  let '(r, d') := handle c d in
  poi_locations d' = poi_locations (seeded env d)
  ∧ user_cards d' = user_cards d
  ∧ (notification_logs d' = notification_logs d
     ∨ ∃ p log,
         nearest_poi (call_location c) (loaded_pois env d) = Some p
         ∧ List.find (log_matches user_id (POILocation.id p)
                        (utcnow_throttle env - timedelta_hours 4))
             (notification_logs d) = None
         ∧ NotificationLog.user_id log = user_id
         ∧ NotificationLog.poi_id log = POILocation.id p
         ∧ NotificationLog.timestamp log = utcnow_log env
         ∧ notification_logs d' = notification_logs d ++ [log]).
Proof.
  cbn zeta. unfold handle. destruct c as [env location current_user].
  cbn [call_env call_location call_user].
  handler_cases; cbn [db poi_locations user_cards notification_logs];
    rewrite ?seeded_logs, ?seeded_cards in *; split_and!; try done;
    try (by left).
  right. eexists sel, _. split_and!; [.. | reflexivity]; done.
Qed.

Lemma active_records_app user_id poi_id now logs logs' :
  active_records user_id poi_id now (logs ++ logs')
  = active_records user_id poi_id now logs
    ++ active_records user_id poi_id now logs'.
Proof. unfold active_records. apply List.filter_app. Qed.

(** Nothing found at an earlier bound means nothing active later. *)
Lemma active_records_none user_id poi_id since now logs :
  List.find (log_matches user_id poi_id since) logs = None →
  since ≤ now - timedelta_hours 4 →
  active_records user_id poi_id now logs = [].
Proof.
  intros Hnone Hle. unfold active_records.
  induction logs as [| x logs IH]; [done |].
  cbn [List.find] in Hnone.
  destruct (log_matches user_id poi_id since x) eqn:Hx; [done |].
  cbn [List.filter].
  destruct (log_matches user_id poi_id (now - timedelta_hours 4) x) eqn:Hx';
    [| by apply IH].
  unfold log_matches in Hx, Hx'.
  apply andb_prop in Hx' as [Hup Ht]. rewrite Hup in Hx. simpl in Hx.
  apply bool_decide_eq_true in Ht. apply bool_decide_eq_false in Hx.
  apply bson_datetime_mono in Hle. lia.
Qed.

Lemma handle_cooldown c d T :
  cooldown_inv T (notification_logs d) →
  T ≤ utcnow_throttle (call_env c) →
  cooldown_inv (utcnow_throttle (call_env c)) (notification_logs (snd (handle c d))).
Proof.
  intros Hinv HT. pose proof (handle_store c d) as Hs. cbn zeta in Hs.
  destruct (handle c d) as [r d']. cbn [snd].
  destruct Hs as (_ & _ & [-> | (p & log & _ & Hnone & Hu & Hp & _ & ->)]).
  - intros u q now Hnow. apply Hinv. lia.
  - intros u q now Hnow. rewrite active_records_app, length_app.
    unfold active_records at 2. cbn [List.filter].
    destruct (log_matches u q (now - timedelta_hours 4) log) eqn:Hm.
    + unfold log_matches in Hm. apply andb_prop in Hm as [Hm _].
      apply andb_prop in Hm as [Hu' Hp'].
      apply bool_decide_eq_true in Hu', Hp'. subst u q.
      rewrite Hu, Hp.
      rewrite (active_records_none _ _ _ now _ Hnone) by lia. simpl. lia.
    + simpl. rewrite Nat.add_0_r. apply Hinv. lia.
Qed.

Lemma cooldown_inv_later T T' logs :
  cooldown_inv T logs → T ≤ T' → cooldown_inv T' logs.
Proof. intros Hinv Hle u q now Hnow. apply Hinv. lia. Qed.

Lemma cooldown_inv_empty T : cooldown_inv T [].
Proof. intros u q now _. simpl. lia. Qed.

Lemma run_calls_cooldown cs d T T' :
  cooldown_inv T (notification_logs d) →
  Forall (λ c, T ≤ utcnow_throttle (call_env c)) cs →
  Forall (λ c, utcnow_throttle (call_env c) ≤ T') cs →
  T ≤ T' →
  chronological cs →
  cooldown_inv T' (notification_logs (snd (run_calls cs d))).
Proof.
  revert d T. induction cs as [| c cs IH]; intros d T Hinv Hlo Hhi HT Hchr.
  - by eapply cooldown_inv_later.
  - cbn [run_calls]. pose proof (handle_cooldown c d T Hinv) as Hc.
    apply Forall_cons in Hlo as [Hlo _]. apply Forall_cons in Hhi as [Hhi Hhis].
    destruct Hchr as [Hnext Hchr].
    destruct (handle c d) as [r d'] eqn:Hh. cbn [snd] in Hc.
    specialize (IH d' _ (Hc Hlo) Hnext Hhis Hhi Hchr).
    destruct (run_calls cs d') as [rs d'']. done.
Qed.

Lemma run_calls_app cs cs' d :
  run_calls (cs ++ cs') d
  = let '(rs, d') := run_calls cs d in
    let '(rs', d'') := run_calls cs' d' in
    (rs ++ rs', d'').
Proof.
  revert d. induction cs as [| c cs IH]; intros d; cbn [run_calls app].
  - by destruct (run_calls cs' d).
  - destruct (handle c d) as [r d']. rewrite IH.
    destruct (run_calls cs d') as [rs d'']. by destruct (run_calls cs' d'').
Qed.

Lemma chronological_app cs c post :
  chronological (cs ++ c :: post) →
  chronological cs
  ∧ Forall (λ c', utcnow_throttle (call_env c') ≤ utcnow_throttle (call_env c)) cs.
Proof.
  induction cs as [| x cs IH]; cbn [app chronological]; [done |].
  intros [Hall Hchr]. destruct (IH Hchr) as [Hcs Hle].
  apply Forall_app in Hall as [Hall1 Hall2].
  apply Forall_cons in Hall2 as [Hxc _]. split_and!; [done | done |].
  by constructor.
Qed.

(** From an empty log, after any chronological run the invariant holds from
    the last clock reading on. *)
Lemma run_calls_from_empty cs d T' :
  notification_logs d = [] →
  chronological cs →
  Forall (λ c, utcnow_throttle (call_env c) ≤ T') cs →
  cooldown_inv T' (notification_logs (snd (run_calls cs d))).
Proof.
  intros Hd Hchr Hhi. destruct cs as [| c cs].
  - simpl. rewrite Hd. apply cooldown_inv_empty.
  - apply (run_calls_cooldown (c :: cs) d (utcnow_throttle (call_env c)));
      [rewrite Hd; apply cooldown_inv_empty | | done | | done].
    + destruct Hchr as [Hall _]. constructor; [lia | done].
    + by apply Forall_cons in Hhi as [? _].
Qed.

Lemma handle_eq c d :
  handle c d =
  let env := call_env c in
  let location := call_location c in
  let current_user := call_user c in
  let d1 := seeded env d in
  match nearest_poi location (loaded_pois env d) with
  | None => (NotFound, d1)
  | Some nearby_poi =>
      match List.find (log_matches (User.id current_user)
                         (POILocation.id nearby_poi)
                         (utcnow_throttle env - timedelta_hours 4))
              (notification_logs d) with
      | Some _ =>
          (Throttled (POILocation.name nearby_poi)
             (POILocation.category nearby_poi), d1)
      | None =>
          match wallet (User.id current_user) d with
          | [] =>
              (NoCards (POILocation.name nearby_poi)
                 (POILocation.category nearby_poi), d1)
          | cards =>
              match get_best_card_for_category cards
                      (POILocation.category nearby_poi) with
              | None =>
                  (NoMatch (POILocation.name nearby_poi)
                     (POILocation.category nearby_poi), d1)
              | Some (best_card, best_rate) =>
                  (Recommended
                     (Recommendation.mk
                        (POILocation.name nearby_poi)
                        (POILocation.category nearby_poi)
                        (UserCard.card_name best_card)
                        (reward_text best_rate)
                        ("Hey, you're at " +:+ POILocation.name nearby_poi
                         +:+ "! Use " +:+ UserCard.card_name best_card
                         +:+ " to get " +:+ reward_text best_rate +:+ ".")),
                   mkDb (poi_locations d1) (user_cards d)
                     (notification_logs d
                      ++ [NotificationLog.mk (uuid4_log env)
                            (User.id current_user) (POILocation.id nearby_poi)
                            (UserCard.card_name best_card) (utcnow_log env)]))
              end
          end
      end
  end.
Proof.
  destruct c as [env location current_user]. unfold handle.
  cbn [call_env call_location call_user]. cbn zeta.
  rewrite <- (seeded_logs env d), <- (wallet_seeded env d), <- (seeded_cards env d).
  handler_cases; reflexivity.
Qed.

Lemma seeded_fixed env d :
  take 1000 (poi_locations d) ≠ [] → seeded env d = d.
Proof. unfold seeded. by destruct (take 1000 (poi_locations d)). Qed.

Lemma find_snoc {A} (f : A → bool) l x :
  List.find f (l ++ [x])
  = match List.find f l with
    | Some y => Some y
    | None => if f x then Some x else None
    end.
Proof.
  induction l as [| y l IH]; cbn [app List.find]; [done |].
  by destruct (f y).
Qed.

Lemma find_log_later user_id poi_id since since' logs :
  List.find (log_matches user_id poi_id since) logs = None →
  since ≤ since' →
  List.find (log_matches user_id poi_id since') logs = None.
Proof.
  intros Hnone Hle.
  destruct (List.find (log_matches user_id poi_id since') logs) as [x |] eqn:Hf;
    [| done].
  apply find_some in Hf as [Hin Hm].
  pose proof (find_none _ _ Hnone x Hin) as Hm'.
  unfold log_matches in Hm, Hm'.
  apply andb_prop in Hm as [Hup Ht]. rewrite Hup in Hm'. simpl in Hm'.
  apply bool_decide_eq_true in Ht. apply bool_decide_eq_false in Hm'.
  apply bson_datetime_mono in Hle. lia.
Qed.

(** Recommended, then throttled at the same clock reading, then
    recommended again once the reading has moved on by four hours and a
    millisecond. *)
Lemma recommend_throttle_recommend d location current_user env1 env2 env3 rec :
  let c env := mkCall env location current_user in
  utcnow_log env1 = utcnow_throttle env1 →
  utcnow_throttle env2 = utcnow_throttle env1 →
  utcnow_throttle env1 + timedelta_hours 4 + 1000 ≤ utcnow_throttle env3 →
  fst (handle (c env1) d) = Recommended rec →
  fst (run_calls [c env1; c env2; c env3] d)
  = [Recommended rec;
     Throttled (Recommendation.merchant_name rec) (Recommendation.category rec);
     Recommended rec].
Proof.
  intros c Hlog H2 H3 H1. subst c. cbn [run_calls].
  assert (Htd : 0 < timedelta_hours 4) by done.
  rewrite (handle_eq (mkCall env1 _ _)) in H1 |- *.
  cbn [call_env call_location call_user] in H1 |- *. cbn zeta in H1 |- *.
  destruct (nearest_poi location (loaded_pois env1 d)) as [p |] eqn:Hp;
    [| done].
  destruct (List.find _ (notification_logs d)) eqn:Hfind; [done |].
  destruct (wallet (User.id current_user) d) as [| c0 cs0] eqn:Hw; [done |].
  destruct (get_best_card_for_category (c0 :: cs0) (POILocation.category p))
    as [[bc br] |] eqn:Hb; [| done].
  cbn [fst] in H1. injection H1 as <-.
  set (log1 := NotificationLog.mk (uuid4_log env1) (User.id current_user)
                 (POILocation.id p) (UserCard.card_name bc) (utcnow_log env1)).
  set (d1 := mkDb (poi_locations (seeded env1 d)) (user_cards d)
               (notification_logs d ++ [log1])).
  assert (Hne : take 1000 (poi_locations d1) ≠ []).
  { apply (loaded_pois_nonempty env1 d). }
  assert (Hl1 : ∀ env, loaded_pois env d1 = loaded_pois env1 d).
  { intros env. unfold loaded_pois at 1. by rewrite seeded_fixed. }
  assert (Hw1 : wallet (User.id current_user) d1 = c0 :: cs0) by done.
  (* second call *)
  rewrite (handle_eq (mkCall env2 _ _) d1).
  cbn [call_env call_location call_user]. cbn zeta.
  rewrite Hl1, Hp, (seeded_fixed env2 d1 Hne).
  cbn [notification_logs d1]. rewrite find_snoc, H2, Hfind.
  assert (Hm : log_matches (User.id current_user) (POILocation.id p)
                 (utcnow_throttle env1 - timedelta_hours 4) log1 = true).
  { unfold log_matches, log1.
    cbn [NotificationLog.user_id NotificationLog.poi_id
         NotificationLog.timestamp].
    rewrite !bool_decide_eq_true_2; [done | | done | done].
    rewrite Hlog.
    pose proof (bson_datetime_mono
                  (utcnow_throttle env1 - timedelta_hours 4)
                  (utcnow_throttle env1)). lia. }
  rewrite Hm.
  (* third call *)
  rewrite (handle_eq (mkCall env3 _ _) d1).
  cbn [call_env call_location call_user]. cbn zeta.
  rewrite Hl1, Hp, Hw1, Hb.
  cbn [notification_logs d1]. rewrite find_snoc.
  rewrite (find_log_later _ _ _ (utcnow_throttle env3 - timedelta_hours 4) _ Hfind)
    by lia.
  assert (Hm3 : log_matches (User.id current_user) (POILocation.id p)
                  (utcnow_throttle env3 - timedelta_hours 4) log1 = false).
  { unfold log_matches, log1.
    cbn [NotificationLog.user_id NotificationLog.poi_id
         NotificationLog.timestamp].
    rewrite (bool_decide_eq_false_2 (_ >= _)); [by rewrite andb_false_r |].
    rewrite Hlog.
    pose proof (bson_datetime_mono
                  (utcnow_throttle env1 + 1 * 1000)
                  (utcnow_throttle env3 - timedelta_hours 4)) as Hmono.
    rewrite bson_datetime_add in Hmono. lia. }
  rewrite Hm3. reflexivity.
Qed.

(** A record inside the window to the microsecond is one the query
    matches. *)
Lemma window_records_length user_id poi_id now logs :
  (length (window_records user_id poi_id now logs)
   ≤ length (active_records user_id poi_id now logs))%nat.
Proof.
  unfold window_records, active_records, log_matches.
  induction logs as [| l logs IH]; [done |]. cbn [List.filter].
  destruct (bool_decide (NotificationLog.user_id l = user_id)); cbn [andb];
    [| done].
  destruct (bool_decide (NotificationLog.poi_id l = poi_id)); cbn [andb];
    [| done].
  case_bool_decide as Ht.
  - rewrite bool_decide_eq_true_2; [simpl; lia |].
    pose proof (bson_datetime_mono (now - timedelta_hours 4)
                  (NotificationLog.timestamp l)). lia.
  - case_bool_decide; simpl; lia.
Qed.

Lemma chronological_snoc pre c post :
  chronological (pre ++ c :: post) → chronological (pre ++ [c]).
Proof.
  induction pre as [| x pre IH]; cbn [app chronological].
  - intros _. split; [constructor | done].
  - intros [Hall Hchr]. split; [| by apply IH].
    apply Forall_app in Hall as [Hall1 Hall2].
    apply Forall_cons in Hall2 as [Hxc _].
    apply Forall_app. split; [done |]. by constructor.
Qed.

(** The worked scene, one call at a time. *)
Lemma scene_handle_recommends now logs :
  List.find (log_matches "user-1" "poi-chevron" (now - timedelta_hours 4)) logs
  = None →
  handle (call_at now) (mkDb [chevron] [blue_cash; double_cash] logs)
  = (Recommended chevron_rec,
     mkDb [chevron] [blue_cash; double_cash] (logs ++ [notified now])).
Proof.
  intros Hnone. unfold handle, call_at.
  cbn [call_env call_location call_user].
  by rewrite scene_recommends.
Qed.

Lemma scene_handle_throttles now logs log :
  List.find (log_matches "user-1" "poi-chevron" (now - timedelta_hours 4)) logs
  = Some log →
  handle (call_at now) (mkDb [chevron] [blue_cash; double_cash] logs)
  = (Throttled "Chevron Station" "gas",
     mkDb [chevron] [blue_cash; double_cash] logs).
Proof.
  intros Hsome. unfold handle, call_at.
  cbn [call_env call_location call_user].
  by rewrite (scene_throttles _ _ log).
Qed.

(** * Properties of the engine *)










(** C4, refuted as stated: the only record of the pair was written at
    reading 0; at reading 4 h + 1 us no record has a timestamp of at least
    the reading minus 4 hours, and still the call answers [throttled]. *)
Lemma throttled_past_four_hours_counterexample :
  let d := mkDb [chevron] [blue_cash; double_cash] [notified 0] in
  let env := env_at (timedelta_hours 4 + 1) in
  throttled (fst (run (check_location env at_chevron alice) d)) = true
  ∧ ¬ ∃ log, log ∈ notification_logs d
             ∧ NotificationLog.user_id log = User.id alice
             ∧ NotificationLog.poi_id log = POILocation.id chevron
             ∧ NotificationLog.timestamp log
               >= utcnow_throttle env - timedelta_hours 4.
Proof.
  cbn zeta. split.
  - by rewrite (scene_throttles _ _ (notified 0)).
  - intros (log & Hin & _ & _ & Ht). cbn [notification_logs] in Hin.
    apply list_elem_of_singleton in Hin. subst log.
    vm_compute in Ht. by apply Ht.
Qed.

(** C4, amended.  Once a POI is chosen, the call answers [throttled]
    exactly when the log holds a record of this user and this POI whose
    timestamp, in whole milliseconds, is at least the clock reading minus
    4 hours, in whole milliseconds.  So a record with timestamp at least
    the reading minus 4 hours always throttles, and a record that
    throttles is less than a millisecond older than that. *)
Theorem throttled_iff_recent_record_in_milliseconds
    (env : Env) (location : LocationCheck.t) (current_user : User.t) (d : Db)
    (nearby_poi : POILocation.t) :
  nearest_poi location (loaded_pois env d) = Some nearby_poi →
  let r := fst (run (check_location env location current_user) d) in
  let since := utcnow_throttle env - timedelta_hours 4 in
  let recorded (P : Z → Prop) :=
    ∃ log, log ∈ notification_logs d
           ∧ NotificationLog.user_id log = User.id current_user
           ∧ NotificationLog.poi_id log = POILocation.id nearby_poi
           ∧ P (NotificationLog.timestamp log) in
  timedelta_hours 4 = 4 * 60 * 60 * 1000000
  ∧ (throttled r = true
     ↔ recorded (λ t, t / 1000 >= since / 1000))
  ∧ (recorded (λ t, t >= since) → throttled r = true)
  ∧ (throttled r = true → recorded (λ t, t > since - 1000))
  ∧ (throttled r = true →
       r = Throttled (POILocation.name nearby_poi)
             (POILocation.category nearby_poi)).
Proof.
  intros Hp r since recorded.
  assert (Hiff : throttled r = true
                 ↔ recorded (λ t, bson_datetime t >= bson_datetime since)).
  { subst r since recorded. cbn beta.
    rewrite <- find_log_some, <- (seeded_logs env d).
    handler_cases; simplify_eq; cbn [fst throttled]; rewrite ?Hrecent;
      split; try done; by intros [? ?]. }
  split_and!.
  - done.
  - rewrite Hiff. subst recorded. cbn beta. unfold bson_datetime.
    split; intros (log & ? & ? & ? & ?); exists log; split_and!; try done; lia.
  - intros (log & ? & ? & ? & Ht). apply Hiff. exists log.
    split_and!; try done.
    pose proof (bson_datetime_mono since (NotificationLog.timestamp log)). lia.
  - intros Hthr. apply Hiff in Hthr as (log & ? & ? & ? & Ht). exists log.
    split_and!; try done.
    pose proof (bson_datetime_le (NotificationLog.timestamp log)).
    pose proof (bson_datetime_le since). lia.
  - subst r. handler_cases; simplify_eq; cbn [fst throttled]; done.
Qed.

Lemma throttled_iff_recent_record_in_milliseconds_witness :
  let d := mkDb [chevron] [blue_cash; double_cash] [notified 0] in
  let env := env_at (timedelta_hours 4 + 999) in
  nearest_poi at_chevron (loaded_pois env d) = Some chevron
  ∧ throttled (fst (run (check_location env at_chevron alice) d)) = true.
Proof.
  cbn zeta. split; [apply scene_nearest |].
  apply (proj2 (proj1 (proj2 (throttled_iff_recent_record_in_milliseconds
                         (env_at (timedelta_hours 4 + 999)) at_chevron alice
                         (mkDb [chevron] [blue_cash; double_cash] [notified 0])
                         chevron (scene_nearest _ _))))).
  exists (notified 0). split_and!; [apply list_elem_of_here | done | done |].
  vm_compute. discriminate.
Defined.

(** C5. A call that recommends appends one record to the log, as its last
    operation; every other call leaves the log as it was.  The throttle
    query comes before any matcher call and any log write, and a throttled
    call has neither. *)
Theorem notification_logged_once_when_recommended
    (env : Env) (location : LocationCheck.t) (current_user : User.t) (d : Db) :
  let '(r, s) := run (check_location env location current_user) d in
  match r with
  | Recommended rec =>
      ∃ log, notification_logs (db s) = (notification_logs d ++ [log])
             ∧ List.filter is_insert_log (trace s) = [InsertLog log]
             ∧ last (trace s) = Some (InsertLog log)
             ∧ NotificationLog.user_id log = User.id current_user
             ∧ NotificationLog.card_recommended log
               = Recommendation.recommended_card rec
             ∧ NotificationLog.timestamp log = utcnow_log env
  | Throttled _ _ =>
      notification_logs (db s) = notification_logs d
      ∧ List.filter is_insert_log (trace s) = []
      ∧ List.filter is_best_card (trace s) = []
  | NotFound | NoCards _ _ | NoMatch _ _ =>
      notification_logs (db s) = notification_logs d
      ∧ List.filter is_insert_log (trace s) = []
  end
  ∧ ∀ i op, trace s !! i = Some op →
            is_best_card op || is_insert_log op = true →
            ∃ j op', (j < i)%nat ∧ trace s !! j = Some op'
                     ∧ is_find_one_log op' = true.
Proof.
  pose proof (geo_phase_prefix env d location (loaded_pois env d)) as Hgeo.
  assert (Hins : List.filter is_insert_log
                   (load_ops env d ++ distance_ops location (loaded_pois env d))
                 = []).
  { apply List.forallb_filter_id in Hgeo as Hid.
    induction (load_ops env d ++ distance_ops location (loaded_pois env d))
      as [| op ops IH]; [done |].
    cbn [forallb] in Hgeo. apply andb_prop in Hgeo as [Hop Hops].
    cbn [List.filter]. destruct op; try done; apply IH; try done;
      by apply List.forallb_filter_id. }
  assert (Hbc : List.filter is_best_card
                   (load_ops env d ++ distance_ops location (loaded_pois env d))
                 = []).
  { clear Hins.
    induction (load_ops env d ++ distance_ops location (loaded_pois env d))
      as [| op ops IH]; [done |].
    cbn [forallb] in Hgeo. apply andb_prop in Hgeo as [Hop Hops].
    cbn [List.filter]. destruct op; try done; by apply IH. }
  handler_cases; cbn [db trace notification_logs];
    set (geo := load_ops env d ++ distance_ops location (loaded_pois env d)) in *.
  - (* throttled *)
    split; [split_and! |].
    + apply seeded_logs.
    + by rewrite List.filter_app, Hins.
    + by rewrite List.filter_app, Hbc.
    + intros i op. by apply after_throttle_query.
  - (* no cards *)
    split; [split_and! |].
    + apply seeded_logs.
    + by rewrite !List.filter_app, Hins.
    + intros i op. rewrite <- app_assoc. by apply after_throttle_query.
  - (* recommended *)
    split.
    + eexists. split_and!; [by rewrite seeded_logs | | | done | done | done].
      * by rewrite !List.filter_app, Hins.
      * by rewrite last_snoc.
    + intros i op. rewrite <- !app_assoc. by apply after_throttle_query.
  - (* no match *)
    split; [split_and! |].
    + apply seeded_logs.
    + by rewrite !List.filter_app, Hins.
    + intros i op. rewrite <- !app_assoc. by apply after_throttle_query.
  - (* no merchants *)
    split; [split_and! |].
    + apply seeded_logs.
    + done.
    + intros i op Hi Hop. by rewrite (geo_phase_quiet _ _ _ Hgeo Hi) in Hop.
Qed.



(** C7, refuted as stated: with the clock held at reading 0 the first call
    is recommended and the second throttled, and a third call at reading
    4 h + 1 us, past the 4 hours, is throttled too. *)
Lemma third_call_past_four_hours_counterexample :
  let cs := [call_at 0; call_at 0; call_at (timedelta_hours 4 + 1)] in
  notification_logs scene = []
  ∧ chronological cs
  ∧ 0 + timedelta_hours 4 < timedelta_hours 4 + 1
  ∧ fst (run_calls cs scene)
    = [Recommended chevron_rec; Throttled "Chevron Station" "gas";
       Throttled "Chevron Station" "gas"].
Proof.
  cbn zeta. split_and!; [done | | done |].
  - cbn [chronological]. split_and!; [| | done | done].
    + constructor; [done |]. constructor; [done | constructor].
    + constructor; [done | constructor].
  - cbn [run_calls]. unfold scene.
    rewrite scene_handle_recommends by done.
    rewrite (scene_handle_throttles 0 _ (notified 0)) by done.
    rewrite (scene_handle_throttles _ _ (notified 0)) by done.
    reflexivity.
Qed.

(** C7, amended.  Calls served in the order of their clock readings, from
    an empty log: at the reading of every call, before and after it is
    served, the log holds at most one record of any (user, POI) pair with
    its timestamp inside the 4-hour window, and at most one that the
    throttle query matches.  With the clock held at one reading, a
    recommended call is followed by a throttled one for the same user at
    the same place, and a third call at least 4 hours and one millisecond
    later is recommended again. *)
Theorem cooldown_one_active_record_in_milliseconds (cs : list Call) (d : Db) :
  notification_logs d = [] →
  chronological cs →
  (∀ pre c post user_id poi_id,
     cs = pre ++ c :: post →
     let now := utcnow_throttle (call_env c) in
     let before := notification_logs (snd (run_calls pre d)) in
     let after := notification_logs (snd (run_calls (pre ++ [c]) d)) in
     (length (window_records user_id poi_id now before) ≤ 1)%nat
     ∧ (length (window_records user_id poi_id now after) ≤ 1)%nat
     ∧ (length (active_records user_id poi_id now before) ≤ 1)%nat
     ∧ (length (active_records user_id poi_id now after) ≤ 1)%nat)
  ∧ (∀ location current_user env1 env2 env3 rec,
       let c env := mkCall env location current_user in
       utcnow_log env1 = utcnow_throttle env1 →
       utcnow_throttle env2 = utcnow_throttle env1 →
       utcnow_throttle env1 + timedelta_hours 4 + 1000 ≤ utcnow_throttle env3 →
       fst (handle (c env1) d) = Recommended rec →
       fst (run_calls [c env1; c env2; c env3] d)
       = [Recommended rec;
          Throttled (Recommendation.merchant_name rec)
            (Recommendation.category rec);
          Recommended rec]).
Proof.
  intros Hd Hchr. split.
  - intros pre c post user_id poi_id -> now before after.
    apply chronological_app in Hchr as Hpre. destruct Hpre as [Hpre Hle].
    assert (Hb : (length (active_records user_id poi_id now before) ≤ 1)%nat).
    { apply (run_calls_from_empty pre d now Hd Hpre Hle). lia. }
    assert (Ha : (length (active_records user_id poi_id now after) ≤ 1)%nat).
    { apply chronological_snoc in Hchr.
      assert (Hle' : Forall (λ c', utcnow_throttle (call_env c') ≤ now)
                       (pre ++ [c])).
      { apply Forall_app. split; [done |]. by constructor. }
      apply (run_calls_from_empty (pre ++ [c]) d now Hd Hchr Hle'). lia. }
    pose proof (window_records_length user_id poi_id now before).
    pose proof (window_records_length user_id poi_id now after).
    split_and!; lia.
  - intros. by apply recommend_throttle_recommend.
Qed.

Lemma cooldown_one_active_record_in_milliseconds_witness :
  let cs := [call_at 0; call_at 0; call_at (timedelta_hours 4 + 1000)] in
  notification_logs scene = []
  ∧ chronological cs
  ∧ fst (run_calls cs scene)
    = [Recommended chevron_rec; Throttled "Chevron Station" "gas";
       Recommended chevron_rec].
Proof.
  cbn zeta.
  assert (Hd : notification_logs scene = []) by reflexivity.
  assert (Hchr : chronological
                   [call_at 0; call_at 0; call_at (timedelta_hours 4 + 1000)]).
  { cbn [chronological]. split_and!; [| | done | done].
    - constructor; [done |]. constructor; [done | constructor].
    - constructor; [done | constructor]. }
  assert (H1 : fst (handle (mkCall (env_at 0) at_chevron alice) scene)
               = Recommended chevron_rec).
  { unfold handle, scene. cbn [call_env call_location call_user].
    by rewrite scene_recommends. }
  assert (H3 : utcnow_throttle (env_at 0) + timedelta_hours 4 + 1000
               ≤ utcnow_throttle (env_at (timedelta_hours 4 + 1000))).
  { vm_compute. discriminate. }
  split_and!; [exact Hd | exact Hchr |].
  exact (proj2 (cooldown_one_active_record_in_milliseconds _ scene Hd Hchr)
           at_chevron alice (env_at 0) (env_at 0)
           (env_at (timedelta_hours 4 + 1000))
           chevron_rec eq_refl eq_refl H3 H1).
Defined.

(** C8. In exact arithmetic the haversine term stays in [0, 1], so neither
    square root is taken below zero; the distance is never negative, it is
    the same in both directions, and it is 0 between a point and itself. *)
Theorem calculate_distance_nonneg_sym_zero (lat1 lon1 lat2 lon2 : R) :
  (0 <= hav_a lat1 lon1 lat2 lon2 <= 1
   ∧ 0 <= calculate_distance lat1 lon1 lat2 lon2
   ∧ calculate_distance lat1 lon1 lat2 lon2 = calculate_distance lat2 lon2 lat1 lon1
   ∧ calculate_distance lat1 lon1 lat1 lon1 = 0)%R.
Proof.
  split_and!.
  - apply hav_a_range.
  - apply hav_a_range.
  - apply distance_nonneg.
  - apply distance_sym.
  - apply distance_same.
Qed.

(** C9, refuted as stated: a POI at distance exactly its radius is
    selected.  Once with a geofence of radius 0 around the location itself,
    once with a radius of a quarter of a great circle. *)
Lemma boundary_distance_selected_counterexample :
  (let poi := POILocation.mk "poi-0" "Kiosk" "coffee" 10 20 None 0 in
   let location := LocationCheck.mk 10 20 "user-1" in
   distance_to location poi = POILocation.radius poi
   ∧ nearest_poi location [poi] = Some poi)
  ∧ (let poi := POILocation.mk "poi-q" "Depot" "gas" 0 90 None
                  (6371000 * (PI / 2)) in
     let location := LocationCheck.mk 0 0 "user-1" in
     distance_to location poi = POILocation.radius poi
     ∧ nearest_poi location [poi] = Some poi).
Proof.
  split; cbn zeta.
  - assert (H : distance_to (LocationCheck.mk 10 20 "user-1")
                  (POILocation.mk "poi-0" "Kiosk" "coffee" 10 20 None 0) = 0%R).
    { unfold distance_to. simpl. apply distance_same. }
    split; [done |]. apply nearest_poi_single. unfold in_geofence.
    rewrite H. simpl. lra.
  - assert (H : distance_to (LocationCheck.mk 0 0 "user-1")
                  (POILocation.mk "poi-q" "Depot" "gas" 0 90 None
                     (6371000 * (PI / 2)))
                = (6371000 * (PI / 2))%R).
    { unfold distance_to. simpl. apply distance_quarter. }
    split; [done |]. apply nearest_poi_single. unfold in_geofence.
    rewrite H. simpl. lra.
Qed.

(** C9, amended.  The boundary is included: a POI at distance exactly its
    radius has the location in its geofence.  With such a POI in the
    catalogue the call finds a merchant, and it selects that POI when every
    other POI whose geofence holds the location is strictly farther. *)
Theorem boundary_distance_matches
    (env : Env) (location : LocationCheck.t) (current_user : User.t) (d : Db)
    (poi : POILocation.t) :
  distance_to location poi = POILocation.radius poi →
  poi ∈ loaded_pois env d →
  in_geofence location poi
  ∧ found (fst (run (check_location env location current_user) d)) = true
  ∧ ((∀ q, q ∈ loaded_pois env d → q ≠ poi → in_geofence location q →
           (distance_to location poi < distance_to location q)%R) →
     nearest_poi location (loaded_pois env d) = Some poi
     ∧ merchant (fst (run (check_location env location current_user) d))
       = Some (POILocation.name poi)).
Proof.
  intros Hd Hin.
  assert (Hgeo : in_geofence location poi).
  { unfold in_geofence. rewrite Hd. apply Rle_refl. }
  pose proof (nearest_poi_spec location (loaded_pois env d)) as Hs.
  split_and!.
  - done.
  - destruct (fst (run (check_location env location current_user) d)) eqn:Hr;
      try done.
    apply check_location_no_merchants in Hr. rewrite Hr in Hs.
    rewrite Forall_forall in Hs. by destruct (Hs poi).
  - intros Hfar.
    assert (Hsel : nearest_poi location (loaded_pois env d) = Some poi).
    { destruct (nearest_poi location (loaded_pois env d)) as [p |].
      - destruct Hs as (Hp & Hall & i & Hi & _).
        destruct (Classical_Prop.classic (p = poi)) as [-> | Hne]; [done |].
        apply list_elem_of_lookup_2 in Hi.
        specialize (Hfar p Hi Hne Hp).
        rewrite Forall_forall in Hall. specialize (Hall poi Hin Hgeo). lra.
      - rewrite Forall_forall in Hs. by destruct (Hs poi). }
    split; [done |]. by apply check_location_merchant.
Qed.

Lemma boundary_distance_matches_witness :
  let poi := POILocation.mk "poi-0" "Kiosk" "coffee" 10 20 None 0 in
  let location := LocationCheck.mk 10 20 "user-1" in
  let d := mkDb [poi] [] [] in
  distance_to location poi = POILocation.radius poi
  ∧ poi ∈ loaded_pois (env_at 0) d
  ∧ found (fst (run (check_location (env_at 0) location alice) d)) = true.
Proof.
  cbn zeta.
  assert (H : distance_to (LocationCheck.mk 10 20 "user-1")
                (POILocation.mk "poi-0" "Kiosk" "coffee" 10 20 None 0)
              = POILocation.radius
                  (POILocation.mk "poi-0" "Kiosk" "coffee" 10 20 None 0)).
  { unfold distance_to. simpl. apply distance_same. }
  assert (Hin : POILocation.mk "poi-0" "Kiosk" "coffee" 10 20 None 0
                ∈ loaded_pois (env_at 0)
                    (mkDb [POILocation.mk "poi-0" "Kiosk" "coffee" 10 20 None 0]
                       [] [])).
  { apply list_elem_of_here. }
  split_and!; [exact H | exact Hin |].
  exact (proj1 (proj2 (boundary_distance_matches (env_at 0) _ alice _ _ H Hin))).
Defined.

(** C10. When the map has the lower-cased category key, the card's rate is
    that key's value whatever ['everything'] and ['general'] hold; with
    [{category: 0, everything: r}], [r > 0], the rate is 0 and the card is
    not eligible: the matcher never returns it. *)
Theorem exact_key_shadows_fallbacks
    (category : string) (card : UserCard.t) (v : Z) :
  UserCard.rewards card !! lower category = Some v →
  card_rate (UserCard.rewards card) category = v
  ∧ (∀ e g, lower category ≠ "everything" → lower category ≠ "general" →
       card_rate (<["everything" := e]> (<["general" := g]> (UserCard.rewards card)))
         category = v)
  ∧ (v = 0 → ∀ user_cards r,
       get_best_card_for_category user_cards category ≠ Some (card, r))
  ∧ (∀ r, 0 < r → lower category ≠ "everything" →
       let c := card_of "C" {[ lower category := 0; "everything" := r ]} in
       card_rate (UserCard.rewards c) category = 0
       ∧ get_best_card_for_category [c] category = None).
Proof.
  intros Hv. split_and!.
  - by apply card_rate_exact.
  - intros e g He Hg. apply card_rate_exact.
    by rewrite !lookup_insert_ne.
  - intros -> user_cards r Hb.
    pose proof (best_card_spec user_cards category) as Hs. simpl in Hs.
    rewrite Hb in Hs. destruct Hs as (Hpos & Hr & _).
    rewrite (card_rate_exact _ _ _ Hv) in Hr. lia.
  - intros r Hr He c.
    assert (Hc : card_rate (UserCard.rewards c) category = 0).
    { apply card_rate_exact. simpl. by rewrite lookup_insert_eq. }
    split; [done |].
    unfold get_best_card_for_category, best_loop. cbn [fold_left].
    unfold best_step. rewrite Hc. cbn [snd]. case_decide; [lia | done].
Qed.

Lemma exact_key_shadows_fallbacks_witness :
  UserCard.rewards (card_of "C" {[ "gas" := 0; "everything" := 2 ]}) !! lower "Gas"
  = Some 0
  ∧ card_rate (UserCard.rewards (card_of "C" {[ "gas" := 0; "everything" := 2 ]}))
      "Gas" = 0.
Proof.
  assert (H : UserCard.rewards (card_of "C" {[ "gas" := 0; "everything" := 2 ]})
                 !! lower "Gas" = Some 0) by (vm_compute; reflexivity).
  split; [exact H |].
  exact (proj1 (exact_key_shadows_fallbacks "Gas" _ 0 H)).
Defined.

(** * Further properties *)

(** ** Geo module *)

Section GeoMore.
Local Open Scope R_scope.

Lemma atan2_le_quarter_turn y x : 0 <= y → 0 <= x → atan2 y x <= PI / 2.
Proof.
  intros Hy Hx. unfold atan2. pose proof PI_RGT_0.
  destruct (Rlt_dec 0 x).
  - pose proof (atan_bound (y / x)). lra.
  - destruct (Rlt_dec x 0); [lra |].
    destruct (Rlt_dec 0 y); [lra |].
    destruct (Rlt_dec y 0); lra.
Qed.

(** X1. No two points are farther apart than half the Earth's
    circumference. *)
Theorem distance_at_most_half_circumference (lat1 lon1 lat2 lon2 : R) :
  calculate_distance lat1 lon1 lat2 lon2 <= 6371000 * PI.
Proof.
  unfold calculate_distance.
  pose proof (atan2_le_quarter_turn (sqrt (hav_a lat1 lon1 lat2 lon2))
                (sqrt (1 - hav_a lat1 lon1 lat2 lon2)) (sqrt_pos _) (sqrt_pos _)).
  lra.
Qed.

(** X2. In exact arithmetic the distance has no seam at the antimeridian:
    a longitude and the same longitude plus or minus 360 degrees give the
    same distance, on either argument. *)
Theorem distance_longitude_wraps (lat1 lon1 lat2 lon2 : R) :
  calculate_distance lat1 (lon1 + 360) lat2 lon2
  = calculate_distance lat1 lon1 lat2 lon2
  ∧ calculate_distance lat1 (lon1 - 360) lat2 lon2
    = calculate_distance lat1 lon1 lat2 lon2
  ∧ calculate_distance lat1 lon1 lat2 (lon2 + 360)
    = calculate_distance lat1 lon1 lat2 lon2
  ∧ calculate_distance lat1 lon1 lat2 (lon2 - 360)
    = calculate_distance lat1 lon1 lat2 lon2.
Proof.
  assert (Hminus : ∀ a b c d, hav_a a (b - 360) c d = hav_a a b c d).
  { intros a b c d. rewrite <- (hav_a_turn a (b - 360) c d). f_equal. lra. }
  unfold calculate_distance. split_and!.
  - by rewrite hav_a_turn.
  - by rewrite Hminus.
  - by rewrite (hav_a_sym lat1 lon1 lat2 (lon2 + 360)), hav_a_turn,
      (hav_a_sym lat2 lon2 lat1 lon1).
  - by rewrite (hav_a_sym lat1 lon1 lat2 (lon2 - 360)), Hminus,
      (hav_a_sym lat2 lon2 lat1 lon1).
Qed.

(** X3. In exact arithmetic antipodal points are exactly half the
    circumference apart. *)
Theorem distance_antipodal (lat lon : R) :
  calculate_distance lat lon (- lat) (lon + 180) = 6371000 * PI.
Proof.
  assert (Ha : hav_a lat lon (- lat) (lon + 180) = 1).
  { unfold hav_a.
    replace (radians (- lat - lat) / 2) with (- radians lat)
      by (unfold radians; lra).
    replace (radians (lon + 180 - lon) / 2) with (PI / 2)
      by (unfold radians; lra).
    replace (radians (- lat)) with (- radians lat) by (unfold radians; lra).
    rewrite sin_neg, cos_neg, sin_PI2.
    pose proof (sin2_cos2 (radians lat)) as H. unfold Rsqr in H. lra. }
  unfold calculate_distance. rewrite Ha.
  replace (1 - 1) with 0 by lra. rewrite sqrt_1, sqrt_0.
  unfold atan2.
  destruct (Rlt_dec 0 0); [lra |]. destruct (Rlt_dec 0 1); lra.
Qed.

(** X4. In exact arithmetic, for latitudes in range, the distance is at
    least the arc of meridian between the two parallels, whatever the
    longitudes. *)
Theorem distance_at_least_meridian_arc (lat1 lon1 lat2 lon2 : R) :
  -90 <= lat1 <= 90 → -90 <= lat2 <= 90 → lat1 <= lat2 → lat2 - lat1 < 180 →
  6371000 * radians (lat2 - lat1) <= calculate_distance lat1 lon1 lat2 lon2
  ∧ 6371000 * radians (lat2 - lat1) <= calculate_distance lat2 lon2 lat1 lon1.
Proof.
  intros H1 H2 Hle Hlt. split.
  - apply distance_ge_meridian; [done | done | lra | by left].
  - apply distance_ge_meridian; [done | done | lra | by right].
Qed.

Lemma distance_at_least_meridian_arc_witness :
  6371000 * radians (37.7849 - 37.7749)
  <= calculate_distance 37.7749 (-122.4194) 37.7849 (-122.4094).
Proof.
  apply (distance_at_least_meridian_arc 37.7749 (-122.4194) 37.7849 (-122.4094));
    lra.
Defined.

Lemma atan2_zero y x : 0 <= y → 0 <= x → atan2 y x = 0 → y = 0.
Proof.
  intros Hy Hx. unfold atan2. pose proof PI_RGT_0.
  destruct (Rlt_dec 0 x).
  - intros H0. apply atan_eq0 in H0.
    apply (Rmult_eq_compat_r x) in H0. field_simplify in H0; lra.
  - destruct (Rlt_dec x 0); [lra |].
    destruct (Rlt_dec 0 y); [lra |].
    destruct (Rlt_dec y 0); lra.
Qed.

Lemma sin_zero_quarter x : - (PI / 2) <= x <= PI / 2 → sin x = 0 → x = 0.
Proof.
  intros [Hlo Hhi] Hs. pose proof PI_RGT_0.
  destruct (Rtotal_order x 0) as [Hlt | [Heq | Hgt]]; [| done |].
  - pose proof (sin_increasing_1 x 0 Hlo Hhi) as Hi. rewrite sin_0 in Hi. lra.
  - pose proof (sin_increasing_1 0 x) as Hi. rewrite sin_0 in Hi. lra.
Qed.

(** X5. In exact arithmetic, for coordinates in range, distance 0 means
    the same point: the latitudes are equal, and unless that latitude is a
    pole the longitudes are equal or are the two names, -180 and 180, of
    the antimeridian. *)
Theorem distance_zero_same_point (lat1 lon1 lat2 lon2 : R) :
  -90 <= lat1 <= 90 → -90 <= lat2 <= 90 →
  -180 <= lon1 <= 180 → -180 <= lon2 <= 180 →
  calculate_distance lat1 lon1 lat2 lon2 = 0 →
  lat1 = lat2
  ∧ (lat1 = 90 ∨ lat1 = -90 ∨ lon1 = lon2
     ∨ (lon1 = -180 ∧ lon2 = 180) ∨ (lon1 = 180 ∧ lon2 = -180)).
Proof.
  intros H1 H2 H3 H4 Hd. pose proof PI_RGT_0 as Hpi.
  unfold calculate_distance in Hd.
  pose proof (hav_a_range lat1 lon1 lat2 lon2) as [Ha0 Ha1].
  assert (Hat : atan2 (sqrt (hav_a lat1 lon1 lat2 lon2))
                  (sqrt (1 - hav_a lat1 lon1 lat2 lon2)) = 0) by lra.
  apply atan2_zero in Hat; [| apply sqrt_pos | apply sqrt_pos].
  apply sqrt_eq_0 in Hat; [| done].
  pose proof (hav_a_ge_meridian lat1 lon1 lat2 lon2 H1 H2) as Hge.
  pose proof (sin_sq_unit (radians (lat2 - lat1) / 2)) as [Hs0 _].
  assert (Hsin : sin (radians (lat2 - lat1) / 2) = 0) by nra.
  apply sin_zero_quarter in Hsin; [| unfold radians; split; nra].
  assert (Hlat : lat1 = lat2) by (unfold radians in Hsin; nra).
  split; [done |]. subst lat2.
  destruct (Req_dec lat1 90) as [? | Hn90]; [by left |].
  destruct (Req_dec lat1 (-90)) as [? | Hn90']; [by right; left |].
  right; right.
  assert (Hc : 0 < cos (radians lat1)).
  { apply cos_gt_0; unfold radians; nra. }
  unfold hav_a in Hat.
  replace (radians (lat1 - lat1) / 2) with 0 in Hat by (unfold radians; lra).
  rewrite sin_0 in Hat.
  assert (Hsl : sin (radians (lon2 - lon1) / 2) = 0).
  { assert (Hprod : cos (radians lat1) * cos (radians lat1)
                    * sin (radians (lon2 - lon1) / 2) ^ 2 = 0) by lra.
    apply Rmult_integral in Hprod as [Hcc | Hss]; [nra |].
    apply Rmult_integral in Hss as [? | Hss]; [done | lra]. }
  apply sin_eq_0_0 in Hsl as [k Hk].
  assert (Hk' : lon2 - lon1 = 360 * IZR k) by (unfold radians in Hk; nra).
  assert (Hkb : (-1 <= k <= 1)%Z).
  { split; apply le_IZR; simpl; lra. }
  assert (Hcases : k = (-1)%Z ∨ k = 0%Z ∨ k = 1%Z) by lia.
  destruct Hcases as [-> | [-> | ->]]; simpl in Hk'.
  - right; right. lra.
  - left. lra.
  - right; left. lra.
Qed.

Lemma distance_zero_same_point_witness :
  calculate_distance 37.7749 (-122.4194) 37.7749 (-122.4194) = 0
  ∧ (37.7749 = 37.7749
     ∧ (37.7749 = 90 ∨ 37.7749 = -90 ∨ -122.4194 = -122.4194
        ∨ (-122.4194 = -180 ∧ -122.4194 = 180)
        ∨ (-122.4194 = 180 ∧ -122.4194 = -180))).
Proof.
  assert (H : calculate_distance 37.7749 (-122.4194) 37.7749 (-122.4194) = 0)
    by apply distance_same.
  split; [exact H |].
  apply (distance_zero_same_point 37.7749 (-122.4194) 37.7749 (-122.4194));
    [lra | lra | lra | lra | exact H].
Defined.
End GeoMore.

(** ** Reward matcher *)

Lemma lower_ascii_idem c : lower_ascii (lower_ascii c) = lower_ascii c.
Proof. by destruct c as [[] [] [] [] [] [] [] []]. Qed.

Lemma lower_idem s : lower (lower s) = lower s.
Proof.
  induction s as [| c s IH]; [done |]. cbn [lower].
  by rewrite lower_ascii_idem, IH.
Qed.

Lemma best_loop_ext category category' cards st :
  lower category = lower category' →
  best_loop category cards st = best_loop category' cards st.
Proof.
  intros Hl. revert st. unfold best_loop.
  induction cards as [| c cards IH]; intros st; [done |].
  cbn [fold_left]. rewrite IH. f_equal.
  unfold best_step, card_rate. by rewrite Hl.
Qed.

(** X6. The category is matched without regard to ASCII case: two
    spellings with the same lower-case form give the same answer, and so
    does the lower-case form itself. *)
Theorem best_card_ignores_case
    (user_cards : list UserCard.t) (category category' : string) :
  (lower category = lower category' →
   get_best_card_for_category user_cards category
   = get_best_card_for_category user_cards category')
  ∧ get_best_card_for_category user_cards (lower category)
    = get_best_card_for_category user_cards category.
Proof.
  unfold get_best_card_for_category. split.
  - intros Hl. by rewrite (best_loop_ext _ _ _ _ Hl).
  - by rewrite (best_loop_ext (lower category) category _ _ (lower_idem _)).
Qed.

Lemma best_card_ignores_case_witness :
  lower "GAS" = lower "Gas"
  ∧ get_best_card_for_category [blue_cash; double_cash] "GAS"
    = get_best_card_for_category [blue_cash; double_cash] "Gas".
Proof.
  assert (H : lower "GAS" = lower "Gas") by reflexivity.
  split; [exact H |].
  exact (proj1 (best_card_ignores_case [blue_cash; double_cash] "GAS" "Gas") H).
Defined.

(** X7. The keys of the reward map are not lower-cased: a key with an
    upper-case letter in it is never read, so a card that has one gets the
    rate it would get without it. *)
Theorem mixed_case_key_never_read
    (rewards : gmap string Z) (key category : string) (v : Z) :
  lower key ≠ key →
  card_rate (<[key := v]> rewards) category
  = card_rate (delete key rewards) category.
Proof.
  intros Hk.
  assert (H1 : lower category ≠ key).
  { intros <-. by rewrite lower_idem in Hk. }
  assert (H2 : "everything" ≠ key) by (intros <-; by apply Hk).
  assert (H3 : "general" ≠ key) by (intros <-; by apply Hk).
  unfold card_rate.
  by rewrite !lookup_insert_ne, !lookup_delete_ne.
Qed.

Lemma mixed_case_key_never_read_witness :
  lower "Gas" ≠ "Gas"
  ∧ card_rate (<["Gas" := 9]> {[ "general" := 1 ]}) "gas"
    = card_rate (delete "Gas" {[ "general" := 1 ]}) "gas".
Proof.
  assert (H : lower "Gas" ≠ "Gas") by (vm_compute; discriminate).
  split; [exact H |].
  exact (mixed_case_key_never_read {[ "general" := 1 ]} "Gas" "gas" 9 H).
Defined.

(** X8. The rate returned does not depend on the order of the cards; the
    order only decides which of several equally good cards is named. *)
Theorem best_rate_order_independent
    (user_cards user_cards' : list UserCard.t) (category : string) :
  user_cards ≡ₚ user_cards' →
  snd <$> get_best_card_for_category user_cards category
  = snd <$> get_best_card_for_category user_cards' category.
Proof.
  intros Hp.
  pose proof (best_card_spec user_cards category) as H1.
  pose proof (best_card_spec user_cards' category) as H2.
  cbn zeta in H1, H2.
  destruct (get_best_card_for_category user_cards category) as [[c r] |];
    destruct (get_best_card_for_category user_cards' category) as [[c' r'] |];
    simpl; [| | | done].
  - destruct H1 as (_ & Hr & Hall & i & Hi & _).
    destruct H2 as (_ & Hr' & Hall' & i' & Hi' & _).
    apply list_elem_of_lookup_2 in Hi, Hi'.
    rewrite Forall_forall in Hall, Hall'.
    rewrite Hp in Hi. rewrite <- Hp in Hi'.
    specialize (Hall _ Hi'). specialize (Hall' _ Hi). simpl in *.
    f_equal. lia.
  - destruct H1 as (Hpos & Hr & _ & i & Hi & _).
    apply list_elem_of_lookup_2 in Hi. rewrite Hp in Hi.
    rewrite Forall_forall in H2. specialize (H2 _ Hi). simpl in H2. lia.
  - destruct H2 as (Hpos & Hr & _ & i & Hi & _).
    apply list_elem_of_lookup_2 in Hi. rewrite <- Hp in Hi.
    rewrite Forall_forall in H1. specialize (H1 _ Hi). simpl in H1. lia.
Qed.

Lemma best_rate_order_independent_witness :
  [blue_cash; double_cash] ≡ₚ [double_cash; blue_cash]
  ∧ snd <$> get_best_card_for_category [blue_cash; double_cash] "dining"
    = snd <$> get_best_card_for_category [double_cash; blue_cash] "dining".
Proof.
  assert (H : [blue_cash; double_cash] ≡ₚ [double_cash; blue_cash])
    by apply Permutation_swap.
  split; [exact H |].
  exact (best_rate_order_independent _ _ "dining" H).
Defined.

(** X9. Cards appended to the wallet never lower the rate, and they change
    the card named only when one of them pays strictly more. *)
Theorem best_card_stable_under_append
    (user_cards more : list UserCard.t) (category : string)
    (best_card : UserCard.t) (best_rate : Z) :
  get_best_card_for_category user_cards category = Some (best_card, best_rate) →
  ∃ best_card' best_rate',
    get_best_card_for_category (user_cards ++ more) category
    = Some (best_card', best_rate')
    ∧ best_rate ≤ best_rate'
    ∧ (best_rate' = best_rate → best_card' = best_card).
Proof.
  intros Hb.
  pose proof (best_card_spec user_cards category) as H1.
  pose proof (best_card_spec (user_cards ++ more) category) as H2.
  cbn zeta in H1, H2. rewrite Hb in H1.
  destruct H1 as (Hpos & Hr & Hall & i & Hi & Hbefore).
  assert (Hi' : (user_cards ++ more) !! i = Some best_card)
    by by apply lookup_app_l_Some.
  destruct (get_best_card_for_category (user_cards ++ more) category)
    as [[c' r'] |].
  - destruct H2 as (_ & Hr' & Hall' & j & Hj & Hbefore').
    exists c', r'. split; [done |].
    rewrite Forall_forall in Hall'.
    pose proof (Hall' _ (list_elem_of_lookup_2 _ _ _ Hi')) as Hle.
    simpl in Hle. split; [lia |]. intros ->.
    destruct (Nat.lt_trichotomy i j) as [Hlt | [-> | Hgt]].
    + specialize (Hbefore' _ _ Hlt Hi'). lia.
    + by simplify_eq.
    + apply lookup_lt_Some in Hi as Hlen.
      rewrite lookup_app_l in Hj by lia.
      specialize (Hbefore _ _ Hgt Hj). lia.
  - rewrite Forall_forall in H2.
    pose proof (H2 _ (list_elem_of_lookup_2 _ _ _ Hi')) as Hle.
    simpl in Hle. lia.
Qed.

Lemma best_card_stable_under_append_witness :
  get_best_card_for_category [blue_cash] "gas" = Some (blue_cash, 3)
  ∧ ∃ best_card' best_rate',
      get_best_card_for_category ([blue_cash] ++ [double_cash]) "gas"
      = Some (best_card', best_rate')
      ∧ 3 ≤ best_rate'
      ∧ (best_rate' = 3 → best_card' = blue_cash).
Proof.
  assert (H : get_best_card_for_category [blue_cash] "gas" = Some (blue_cash, 3))
    by (vm_compute; reflexivity).
  split; [exact H |].
  exact (best_card_stable_under_append [blue_cash] [double_cash] "gas" _ _ H).
Defined.

Lemma pays_everywhere_rate rewards category :
  pays_everywhere rewards → 0 < card_rate rewards category.
Proof.
  intros [Hpos Hfall]. unfold card_rate, float_of.
  destruct (rewards !! lower category) as [v |] eqn:H1; [by eapply Hpos |].
  destruct (rewards !! "everything") as [v |] eqn:H2; [by eapply Hpos |].
  destruct (rewards !! "general") as [v |] eqn:H3; [by eapply Hpos |].
  destruct Hfall as [[? ?] | [? ?]]; done.
Qed.

(** X10. A card whose rates are all positive and that has an
    ['everything'] or a ['general'] key is eligible for every category, so
    a wallet that holds one always gets a recommendation from the matcher. *)
Theorem catch_all_card_always_matches
    (user_cards : list UserCard.t) (card : UserCard.t) (category : string) :
  card ∈ user_cards →
  pays_everywhere (UserCard.rewards card) →
  ∃ best_card best_rate,
    get_best_card_for_category user_cards category = Some (best_card, best_rate)
    ∧ card_rate (UserCard.rewards card) category ≤ best_rate.
Proof.
  intros Hin Hpays.
  pose proof (pays_everywhere_rate _ category Hpays) as Hpos.
  pose proof (best_card_spec user_cards category) as Hs. cbn zeta in Hs.
  destruct (get_best_card_for_category user_cards category) as [[c r] |].
  - exists c, r. split; [done |].
    destruct Hs as (_ & _ & Hall & _). rewrite Forall_forall in Hall.
    by apply (Hall card).
  - rewrite Forall_forall in Hs. specialize (Hs card Hin). simpl in Hs. lia.
Qed.

Lemma double_cash_pays_everywhere : pays_everywhere (UserCard.rewards double_cash).
Proof.
  split.
  - intros k v. simpl. rewrite lookup_singleton_Some. intros [_ <-]. done.
  - left. by eexists.
Qed.

Lemma catch_all_card_always_matches_witness :
  double_cash ∈ [blue_cash; double_cash]
  ∧ pays_everywhere (UserCard.rewards double_cash)
  ∧ ∃ best_card best_rate,
      get_best_card_for_category [blue_cash; double_cash] "travel"
      = Some (best_card, best_rate)
      ∧ card_rate (UserCard.rewards double_cash) "travel" ≤ best_rate.
Proof.
  assert (Hin : double_cash ∈ [blue_cash; double_cash])
    by (apply list_elem_of_further, list_elem_of_here).
  split_and!; [exact Hin | exact double_cash_pays_everywhere |].
  exact (catch_all_card_always_matches _ _ "travel" Hin
           double_cash_pays_everywhere).
Defined.

(** ** The location handler *)

Lemma nearest_loop_same_place location location' pois st :
  LocationCheck.latitude location = LocationCheck.latitude location' →
  LocationCheck.longitude location = LocationCheck.longitude location' →
  nearest_loop location pois st = nearest_loop location' pois st.
Proof.
  intros Hlat Hlon. revert st. unfold nearest_loop.
  induction pois as [| p pois IH]; intros st; [done |].
  cbn [fold_left]. rewrite IH. f_equal.
  unfold nearest_step, distance_to. by rewrite Hlat, Hlon.
Qed.

(** X11. The [user_id] sent in the body is never read: the call is served
    for the signed-in user, and two bodies that differ only in [user_id]
    get the same answer and leave the same store. *)
Theorem check_location_ignores_body_user_id
    (env : Env) (latitude longitude : R) (user_id user_id' : string)
    (current_user : User.t) (d : Db) :
  run (check_location env (LocationCheck.mk latitude longitude user_id)
         current_user) d
  = run (check_location env (LocationCheck.mk latitude longitude user_id')
           current_user) d.
Proof.
  unfold run. rewrite !check_location_run. cbn zeta.
  unfold nearest_poi.
  by rewrite (nearest_loop_same_place
                (LocationCheck.mk latitude longitude user_id)
                (LocationCheck.mk latitude longitude user_id')).
Qed.

Lemma find_filter {A} (f g : A → bool) l :
  (∀ x, f x = true → g x = true) →
  List.find f (List.filter g l) = List.find f l.
Proof.
  intros Hfg. induction l as [| x l IH]; [done |].
  cbn [List.filter List.find]. destruct (g x) eqn:Hg.
  - cbn [List.find]. by rewrite IH.
  - destruct (f x) eqn:Hf; [| done]. rewrite (Hfg x Hf) in Hg. done.
Qed.

(** X12. What other users own or were told has no influence: two stores
    with the same catalogue, in which the signed-in user has the same
    cards and the same log records, give this user the same answer. *)
Theorem check_location_sees_own_documents_only
    (env : Env) (location : LocationCheck.t) (current_user : User.t)
    (d d' : Db) :
  poi_locations d = poi_locations d' →
  own_cards (User.id current_user) d = own_cards (User.id current_user) d' →
  own_logs (User.id current_user) d = own_logs (User.id current_user) d' →
  fst (run (check_location env location current_user) d)
  = fst (run (check_location env location current_user) d').
Proof.
  intros Hpois Hcards Hlogs.
  assert (Hl : loaded_pois env d = loaded_pois env d').
  { unfold loaded_pois, seeded. rewrite Hpois.
    destruct (take 1000 (poi_locations d')) eqn:Ht; cbn [poi_locations];
      [reflexivity | by rewrite Hpois]. }
  assert (Hw : wallet (User.id current_user) d = wallet (User.id current_user) d').
  { unfold wallet. unfold own_cards in Hcards. by rewrite Hcards. }
  assert (Hf : ∀ poi_id since,
             List.find (log_matches (User.id current_user) poi_id since)
               (notification_logs d)
             = List.find (log_matches (User.id current_user) poi_id since)
                 (notification_logs d')).
  { intros poi_id since.
    rewrite <- (find_filter _
                  (λ l, bool_decide (NotificationLog.user_id l
                                     = User.id current_user))
                  (notification_logs d)).
    - rewrite <- (find_filter _
                    (λ l, bool_decide (NotificationLog.user_id l
                                       = User.id current_user))
                    (notification_logs d')).
      + unfold own_logs in Hlogs. by rewrite Hlogs.
      + intros x Hx. unfold log_matches in Hx.
        apply andb_prop in Hx as [Hx _]. by apply andb_prop in Hx as [Hx _].
    - intros x Hx. unfold log_matches in Hx.
      apply andb_prop in Hx as [Hx _]. by apply andb_prop in Hx as [Hx _]. }
  pose proof (handle_eq (mkCall env location current_user) d) as H1.
  pose proof (handle_eq (mkCall env location current_user) d') as H2.
  unfold handle in H1, H2. cbn [call_env call_location call_user] in H1, H2.
  cbn zeta in H1, H2.
  destruct (run (check_location env location current_user) d) as [r s].
  destruct (run (check_location env location current_user) d') as [r' s'].
  cbn [fst]. rewrite Hl, Hw in H1.
  destruct (nearest_poi location (loaded_pois env d')) as [p |];
    [| by simplify_eq].
  rewrite Hf in H1.
  destruct (List.find _ (notification_logs d')); [by simplify_eq |].
  destruct (wallet (User.id current_user) d') as [| c0 cs0]; [by simplify_eq |].
  destruct (get_best_card_for_category (c0 :: cs0) (POILocation.category p))
    as [[bc br] |]; by simplify_eq.
Qed.

Lemma check_location_sees_own_documents_only_witness :
  let stranger := UserCard.mk "uc-9" "user-2" "c-9" "Other" "x" "#fff"
                    {[ "gas" := 50 ]} 0 in
  let told := NotificationLog.mk "log-9" "user-2" "poi-chevron" "Other" 0 in
  fst (run (check_location (env_at 0) at_chevron alice) scene)
  = fst (run (check_location (env_at 0) at_chevron alice)
           (mkDb [chevron] [stranger; blue_cash; double_cash] [told])).
Proof.
  cbn zeta.
  apply (check_location_sees_own_documents_only (env_at 0) at_chevron alice
           scene); [reflexivity | | ].
  - unfold own_cards, scene. cbn [user_cards]. vm_compute. reflexivity.
  - unfold own_logs, scene. cbn [notification_logs]. vm_compute. reflexivity.
Defined.

Lemma handle_frame c d :
  let '(r, d') := handle c d in
  poi_locations d' = poi_locations (seeded (call_env c) d)
  ∧ user_cards d' = user_cards d
  ∧ ∃ new, notification_logs d' = notification_logs d ++ new
           ∧ length new = (if is_recommended r then 1 else 0)%nat.
Proof.
  rewrite handle_eq. cbn zeta.
  destruct (nearest_poi _ _) as [p |].
  2: { split_and!; [done | apply seeded_cards |].
       exists []. by rewrite app_nil_r, seeded_logs. }
  destruct (List.find _ _).
  { split_and!; [done | apply seeded_cards |].
    exists []. by rewrite app_nil_r, seeded_logs. }
  destruct (wallet _ _) as [| c0 cs0].
  { split_and!; [done | apply seeded_cards |].
    exists []. by rewrite app_nil_r, seeded_logs. }
  destruct (get_best_card_for_category _ _) as [[bc br] |].
  - split_and!; [done | done |]. by eexists [_].
  - split_and!; [done | apply seeded_cards |].
    exists []. by rewrite app_nil_r, seeded_logs.
Qed.

Lemma seeded_poi_locations_fixed env env' d d' :
  poi_locations d' = poi_locations (seeded env d) →
  poi_locations (seeded env' d') = poi_locations d'.
Proof.
  intros Hp. rewrite seeded_fixed; [done |].
  rewrite Hp. apply (loaded_pois_nonempty env d).
Qed.

(** X13. Over any run of calls: the wallet collection is never written;
    the catalogue is written at most by the first call, which seeds it if
    it was empty; the log only grows at its end, by exactly one record per
    recommendation answered. *)
Theorem run_calls_frame (cs : list Call) (d : Db) :
  let '(rs, d') := run_calls cs d in
  length rs = length cs
  ∧ user_cards d' = user_cards d
  ∧ poi_locations d'
    = match cs with
      | [] => poi_locations d
      | c :: _ => poi_locations (seeded (call_env c) d)
      end
  ∧ ∃ new, notification_logs d' = notification_logs d ++ new
           ∧ length new = length (List.filter is_recommended rs).
Proof.
  revert d. induction cs as [| c cs IH]; intros d; cbn [run_calls].
  - split_and!; [done | done | done |]. exists []. by rewrite app_nil_r.
  - pose proof (handle_frame c d) as Hh.
    destruct (handle c d) as [r d1].
    destruct Hh as (Hp1 & Hc1 & new1 & Hl1 & Hn1).
    specialize (IH d1). destruct (run_calls cs d1) as [rs d2].
    destruct IH as (Hlen & Hc2 & Hp2 & new2 & Hl2 & Hn2).
    split_and!.
    + simpl. by rewrite Hlen.
    + by rewrite Hc2.
    + rewrite Hp2. destruct cs as [| c' cs']; [done |].
      by rewrite (seeded_poi_locations_fixed (call_env c) (call_env c') d d1 Hp1).
    + exists (new1 ++ new2). split.
      * by rewrite Hl2, Hl1, app_assoc.
      * rewrite length_app, Hn1, Hn2. cbn [List.filter].
        by destruct (is_recommended r).
Qed.

(** X14. The edge of the cooldown, which the database draws in whole
    milliseconds.  After a recommendation whose record carries timestamp
    [t], a call of the same user at the same place is throttled exactly
    when its clock reading minus four hours, in whole milliseconds, is at
    most [t] in whole milliseconds, and is recommended again, with the same
    card, otherwise.  So it is throttled at every reading up to [t] plus
    four hours, and recommended again from [t] plus four hours and one
    millisecond on. *)
Theorem cooldown_ends_at_millisecond_edge
    (d : Db) (location : LocationCheck.t) (current_user : User.t)
    (env1 env2 : Env) (rec : Recommendation.t) :
  let c env := mkCall env location current_user in
  fst (handle (c env1) d) = Recommended rec →
  utcnow_throttle env1 ≤ utcnow_throttle env2 →
  let again := fst (handle (c env2) (snd (handle (c env1) d))) in
  let since := utcnow_throttle env2 - timedelta_hours 4 in
  (since / 1000 ≤ utcnow_log env1 / 1000 →
   again = Throttled (Recommendation.merchant_name rec)
             (Recommendation.category rec))
  ∧ (utcnow_log env1 / 1000 < since / 1000 → again = Recommended rec)
  ∧ (utcnow_throttle env2 ≤ utcnow_log env1 + timedelta_hours 4 →
     again = Throttled (Recommendation.merchant_name rec)
               (Recommendation.category rec))
  ∧ (utcnow_log env1 + timedelta_hours 4 + 1000 ≤ utcnow_throttle env2 →
     again = Recommended rec).
Proof.
  intros c H1 Hmono again since. subst c again. cbn beta in H1 |- *.
  rewrite (handle_eq (mkCall env1 _ _)) in H1 |- *.
  cbn [call_env call_location call_user] in H1 |- *. cbn zeta in H1 |- *.
  destruct (nearest_poi location (loaded_pois env1 d)) as [p |] eqn:Hp;
    [| done].
  destruct (List.find _ (notification_logs d)) eqn:Hfind; [done |].
  destruct (wallet (User.id current_user) d) as [| c0 cs0] eqn:Hw; [done |].
  destruct (get_best_card_for_category (c0 :: cs0) (POILocation.category p))
    as [[bc br] |] eqn:Hb; [| done].
  cbn [fst snd] in H1 |- *. injection H1 as <-.
  set (log1 := NotificationLog.mk (uuid4_log env1) (User.id current_user)
                 (POILocation.id p) (UserCard.card_name bc) (utcnow_log env1)).
  set (d1 := mkDb (poi_locations (seeded env1 d)) (user_cards d)
               (notification_logs d ++ [log1])).
  assert (Hne : take 1000 (poi_locations d1) ≠ []).
  { apply (loaded_pois_nonempty env1 d). }
  assert (Hl1 : loaded_pois env2 d1 = loaded_pois env1 d).
  { unfold loaded_pois at 1. by rewrite seeded_fixed. }
  assert (Hw1 : wallet (User.id current_user) d1 = c0 :: cs0) by done.
  rewrite (handle_eq (mkCall env2 _ _) d1).
  cbn [call_env call_location call_user]. cbn zeta.
  rewrite Hl1, Hp, Hw1, Hb. cbn [notification_logs d1]. rewrite find_snoc.
  rewrite (find_log_later _ _ _ (utcnow_throttle env2 - timedelta_hours 4) _ Hfind)
    by lia.
  unfold log_matches. cbn [NotificationLog.user_id NotificationLog.poi_id
    NotificationLog.timestamp log1].
  rewrite !bool_decide_eq_true_2 by done. cbn [andb].
  fold since. unfold bson_datetime.
  pose proof (Z.div_le_mono since (utcnow_log env1) 1000).
  pose proof (Z.div_le_mono (utcnow_log env1 + 1 * 1000) since 1000) as Hup.
  rewrite Z.div_add in Hup by lia.
  assert (Hsince : since = utcnow_throttle env2 - timedelta_hours 4) by done.
  split_and!; intros Ht.
  - by rewrite bool_decide_eq_true_2 by lia.
  - by rewrite bool_decide_eq_false_2 by lia.
  - by rewrite bool_decide_eq_true_2 by lia.
  - by rewrite bool_decide_eq_false_2 by lia.
Qed.

Lemma cooldown_ends_at_millisecond_edge_witness :
  fst (handle (call_at 0) scene) = Recommended chevron_rec
  ∧ fst (handle (call_at (timedelta_hours 4 + 999))
           (snd (handle (call_at 0) scene)))
    = Throttled "Chevron Station" "gas"
  ∧ fst (handle (call_at (timedelta_hours 4 + 1000))
           (snd (handle (call_at 0) scene)))
    = Recommended chevron_rec.
Proof.
  assert (H1 : fst (handle (mkCall (env_at 0) at_chevron alice) scene)
               = Recommended chevron_rec).
  { unfold handle, scene. cbn [call_env call_location call_user].
    by rewrite scene_recommends. }
  assert (H2 : utcnow_throttle (env_at 0)
               ≤ utcnow_throttle (env_at (timedelta_hours 4 + 999))).
  { vm_compute. discriminate. }
  assert (H3 : utcnow_throttle (env_at 0)
               ≤ utcnow_throttle (env_at (timedelta_hours 4 + 1000))).
  { vm_compute. discriminate. }
  split_and!; [exact H1 | |].
  - apply (proj1 (cooldown_ends_at_millisecond_edge scene at_chevron alice
                    (env_at 0) (env_at (timedelta_hours 4 + 999))
                    chevron_rec H1 H2)).
    vm_compute. discriminate.
  - apply (proj1 (proj2 (cooldown_ends_at_millisecond_edge scene at_chevron
                           alice (env_at 0) (env_at (timedelta_hours 4 + 1000))
                           chevron_rec H1 H3))).
    vm_compute. reflexivity.
Defined.

(** X15. An answer that is neither a recommendation nor a throttle does
    not wear off: with the store left as the call left it, the same user at
    the same place gets the same answer at every later clock reading. *)
Theorem quiet_answer_repeats
    (d : Db) (location : LocationCheck.t) (current_user : User.t)
    (env1 env2 : Env) :
  let c env := mkCall env location current_user in
  let r := fst (handle (c env1) d) in
  is_recommended r = false → throttled r = false →
  utcnow_throttle env1 ≤ utcnow_throttle env2 →
  handle (c env2) (snd (handle (c env1) d)) = (r, snd (handle (c env1) d)).
Proof.
  intros c r Hrec Hthr Hmono. subst c r. cbn beta in Hrec, Hthr |- *.
  revert Hrec Hthr.
  rewrite (handle_eq (mkCall env1 _ _)).
  cbn [call_env call_location call_user]. cbn zeta.
  assert (Hne : take 1000 (poi_locations (seeded env1 d)) ≠ [])
    by apply (loaded_pois_nonempty env1 d).
  assert (Hfix : seeded env2 (seeded env1 d) = seeded env1 d)
    by by apply seeded_fixed.
  assert (Hl : loaded_pois env2 (seeded env1 d) = loaded_pois env1 d).
  { unfold loaded_pois at 1. by rewrite Hfix. }
  destruct (nearest_poi location (loaded_pois env1 d)) as [p |] eqn:Hp.
  2: { intros _ _. cbn [fst snd]. rewrite handle_eq.
       cbn [call_env call_location call_user]. cbn zeta.
       by rewrite Hl, Hp, Hfix. }
  destruct (List.find _ (notification_logs d)) eqn:Hfind; [done |].
  destruct (wallet (User.id current_user) d) as [| c0 cs0] eqn:Hw.
  { intros _ _. cbn [fst snd]. rewrite handle_eq.
    cbn [call_env call_location call_user]. cbn zeta.
    rewrite Hl, Hp, Hfix, seeded_logs, wallet_seeded, Hw.
    by rewrite (find_log_later _ _ _ _ _ Hfind) by lia. }
  destruct (get_best_card_for_category (c0 :: cs0) (POILocation.category p))
    as [[bc br] |] eqn:Hb; [done |].
  intros _ _. cbn [fst snd]. rewrite handle_eq.
  cbn [call_env call_location call_user]. cbn zeta.
  rewrite Hl, Hp, Hfix, seeded_logs, wallet_seeded, Hw, Hb.
  by rewrite (find_log_later _ _ _ _ _ Hfind) by lia.
Qed.

Lemma quiet_answer_repeats_witness :
  let nobody := User.mk "user-3" "Bob" "bob@example.com" "555-0101" in
  fst (handle (mkCall (env_at 0) at_chevron nobody) scene)
  = NoCards "Chevron Station" "gas"
  ∧ fst (handle (mkCall (env_at 5) at_chevron nobody)
           (snd (handle (mkCall (env_at 0) at_chevron nobody) scene)))
    = NoCards "Chevron Station" "gas".
Proof.
  cbn zeta.
  assert (H1 : fst (handle (mkCall (env_at 0) at_chevron
                              (User.mk "user-3" "Bob" "bob@example.com" "555-0101"))
                      scene)
               = NoCards "Chevron Station" "gas").
  { rewrite handle_eq. cbn [call_env call_location call_user]. cbn zeta.
    unfold scene. rewrite scene_nearest. cbn [notification_logs List.find].
    unfold wallet. cbn [user_cards User.id]. vm_compute. reflexivity. }
  split; [exact H1 |].
  rewrite (quiet_answer_repeats scene at_chevron _ (env_at 0) (env_at 5)).
  - exact H1.
  - by rewrite H1.
  - by rewrite H1.
  - simpl. lia.
Defined.

(** ** Catalogue and wallet *)

Lemma with_user_cards_same s : with_user_cards s (user_cards (core s)) = s.
Proof. by destruct s as [us cc [pl uc nl]]. Qed.

Lemma find_card_some card_id catalogue card :
  List.find (λ c, bool_decide (CreditCard.id c = card_id)) catalogue = Some card →
  card ∈ catalogue ∧ CreditCard.id card = card_id.
Proof.
  intros Hf. apply find_some in Hf as [Hin Hid].
  apply bool_decide_eq_true in Hid. by rewrite list_elem_of_In.
Qed.

Lemma find_card_none card_id catalogue :
  List.find (λ c, bool_decide (CreditCard.id c = card_id)) catalogue = None
  ↔ ∀ card, card ∈ catalogue → CreditCard.id card ≠ card_id.
Proof.
  split.
  - intros Hf card Hin Hid. apply list_elem_of_In in Hin.
    pose proof (find_none _ _ Hf card Hin) as Hn. simpl in Hn.
    by apply bool_decide_eq_false in Hn.
  - intros Hall. destruct (List.find _ catalogue) as [card |] eqn:Hf; [| done].
    apply find_card_some in Hf as [Hin Hid]. by destruct (Hall card).
Qed.

Lemma find_entry_none user_id card_id cards :
  List.find (wallet_entry user_id card_id) cards = None
  ↔ ∀ c, c ∈ cards →
         ¬ (UserCard.user_id c = user_id ∧ UserCard.card_id c = card_id).
Proof.
  split.
  - intros Hf c Hin [Hu Hc]. apply list_elem_of_In in Hin.
    pose proof (find_none _ _ Hf c Hin) as Hn. unfold wallet_entry in Hn.
    rewrite !bool_decide_eq_true_2 in Hn by done. done.
  - intros Hall. destruct (List.find _ cards) as [c |] eqn:Hf; [| done].
    apply find_some in Hf as [Hin Hm]. unfold wallet_entry in Hm.
    apply andb_prop in Hm as [Hu Hc]. apply bool_decide_eq_true in Hu, Hc.
    destruct (Hall c); [by apply list_elem_of_In | done].
Qed.

(** X16. Adding a card answers exactly one of three ways.  404 when the
    catalogue has no card of that id, whatever the wallet holds; 400 when it
    has one and the user already holds it; otherwise the new entry.  The two
    errors leave the database as it was. *)
Theorem add_user_card_answers
    (uuid4 : string) (utcnow : Z) (card_id : string) (current_user : User.t)
    (s : Store) :
  let '(r, s') := add_user_card uuid4 utcnow card_id current_user s in
  let known := ∃ card, card ∈ credit_cards s ∧ CreditCard.id card = card_id in
  let held := ∃ c, c ∈ user_cards (core s)
                   ∧ UserCard.user_id c = User.id current_user
                   ∧ UserCard.card_id c = card_id in
  (r = HTTPException 404 "Card not found" ↔ ¬ known)
  ∧ (r = HTTPException 400 "Card already in wallet" ↔ known ∧ held)
  ∧ ((∃ user_card, r = Returned user_card) ↔ known ∧ ¬ held)
  ∧ ((∀ user_card, r ≠ Returned user_card) → s' = s).
Proof.
  unfold add_user_card.
  destruct (List.find _ (credit_cards s)) as [card |] eqn:Hcard.
  - apply find_card_some in Hcard as Hknown.
    assert (Hk : ∃ card, card ∈ credit_cards s ∧ CreditCard.id card = card_id)
      by by exists card.
    destruct (List.find _ (user_cards (core s))) as [c |] eqn:Hheld.
    + apply find_some in Hheld as [Hin Hm]. unfold wallet_entry in Hm.
      apply andb_prop in Hm as [Hu Hc]. apply bool_decide_eq_true in Hu, Hc.
      assert (Hh : ∃ c, c ∈ user_cards (core s)
                        ∧ UserCard.user_id c = User.id current_user
                        ∧ UserCard.card_id c = card_id).
      { exists c. by rewrite list_elem_of_In. }
      cbn zeta. split_and!; [split; [done | tauto] | tauto | | done].
      split; [by intros [? ?] | tauto].
    + rewrite find_entry_none in Hheld.
      assert (Hh : ¬ ∃ c, c ∈ user_cards (core s)
                          ∧ UserCard.user_id c = User.id current_user
                          ∧ UserCard.card_id c = card_id).
      { intros (c & Hin & Hu & Hc). by destruct (Hheld c Hin). }
      cbn zeta. split_and!; [split; [done | tauto] | split; [done | tauto] | |].
      * split; [done |]. intros _. by eexists.
      * intros Hno. by destruct (Hno _ eq_refl).
  - rewrite find_card_none in Hcard.
    assert (Hk : ¬ ∃ card, card ∈ credit_cards s ∧ CreditCard.id card = card_id).
    { intros (card & Hin & Hid). by destruct (Hcard card Hin). }
    cbn zeta. split_and!; [done | split; [done | tauto] | | done].
    split; [by intros [? ?] | tauto].
Qed.

(** X17. A card that was added is a copy of the catalogue card (id, name,
    issuer, color and reward map) under the user's id; it is stored at the
    end of the wallet collection and nothing else changes; the user's
    listing then ends with it, unless the listing was already full at 1000
    entries, in which case it does not appear. *)
Theorem add_user_card_stores_copy
    (uuid4 : string) (utcnow : Z) (card_id : string) (current_user : User.t)
    (s s' : Store) (user_card : UserCard.t) :
  add_user_card uuid4 utcnow card_id current_user s = (Returned user_card, s') →
  copied_from (credit_cards s) user_card
  ∧ UserCard.card_id user_card = card_id
  ∧ UserCard.user_id user_card = User.id current_user
  ∧ UserCard.id user_card = uuid4
  ∧ UserCard.added_at user_card = utcnow
  ∧ s' = with_user_cards s (user_cards (core s) ++ [user_card])
  ∧ get_user_cards current_user s'
    = take 1000 (own_cards (User.id current_user) (core s) ++ [user_card])
  ∧ ((length (get_user_cards current_user s) < 1000)%nat →
     get_user_cards current_user s'
     = get_user_cards current_user s ++ [user_card])
  ∧ ((1000 ≤ length (own_cards (User.id current_user) (core s)))%nat →
     get_user_cards current_user s' = get_user_cards current_user s).
Proof.
  unfold add_user_card.
  destruct (List.find _ (credit_cards s)) as [card |] eqn:Hcard; [| done].
  destruct (List.find _ (user_cards (core s))) eqn:Hheld; [done |].
  intros [= <- <-]. apply find_card_some in Hcard as [Hin Hid].
  assert (Hown : own_cards (User.id current_user)
                   (core (with_user_cards s (user_cards (core s) ++
                      [UserCard.mk uuid4 (User.id current_user)
                         (CreditCard.id card) (CreditCard.name card)
                         (CreditCard.issuer card) (CreditCard.color card)
                         (CreditCard.rewards card) utcnow])))
                 = own_cards (User.id current_user) (core s) ++
                     [UserCard.mk uuid4 (User.id current_user)
                        (CreditCard.id card) (CreditCard.name card)
                        (CreditCard.issuer card) (CreditCard.color card)
                        (CreditCard.rewards card) utcnow]).
  { unfold own_cards. cbn [core with_user_cards user_cards].
    rewrite List.filter_app. cbn [List.filter UserCard.user_id].
    by rewrite bool_decide_eq_true_2. }
  unfold get_user_cards, wallet. fold (own_cards (User.id current_user) (core s)).
  split_and!; try done.
  - by exists card.
  - fold (own_cards (User.id current_user)
            (core (with_user_cards s (user_cards (core s) ++
               [UserCard.mk uuid4 (User.id current_user)
                  (CreditCard.id card) (CreditCard.name card)
                  (CreditCard.issuer card) (CreditCard.color card)
                  (CreditCard.rewards card) utcnow])))).
    by rewrite Hown.
  - intros Hlt.
    fold (own_cards (User.id current_user)
            (core (with_user_cards s (user_cards (core s) ++
               [UserCard.mk uuid4 (User.id current_user)
                  (CreditCard.id card) (CreditCard.name card)
                  (CreditCard.issuer card) (CreditCard.color card)
                  (CreditCard.rewards card) utcnow])))).
    rewrite Hown. rewrite length_take in Hlt.
    rewrite !take_ge; [done | lia |]. rewrite length_app. simpl. lia.
  - intros Hge.
    fold (own_cards (User.id current_user)
            (core (with_user_cards s (user_cards (core s) ++
               [UserCard.mk uuid4 (User.id current_user)
                  (CreditCard.id card) (CreditCard.name card)
                  (CreditCard.issuer card) (CreditCard.color card)
                  (CreditCard.rewards card) utcnow])))).
    rewrite Hown. by rewrite take_app_le.
Qed.

Lemma shop_add :
  add_user_card "uc-1" 7 "card-1" alice shop
  = (Returned alice_double_cash,
     with_user_cards shop [alice_double_cash]).
Proof. reflexivity. Qed.

Lemma add_user_card_stores_copy_witness :
  add_user_card "uc-1" 7 "card-1" alice shop
  = (Returned alice_double_cash, with_user_cards shop [alice_double_cash])
  ∧ copied_from (credit_cards shop) alice_double_cash.
Proof.
  split; [exact shop_add |].
  exact (proj1 (add_user_card_stores_copy _ _ _ _ _ _ _ shop_add)).
Defined.

Lemma delete_one_spec {A} (f : A → bool) l :
  let '(rest, n) := delete_one f l in
  (List.find f l = None ∧ rest = l ∧ n = 0)
  ∨ (∃ pre x post, l = pre ++ x :: post ∧ f x = true
                   ∧ List.find f pre = None ∧ rest = pre ++ post ∧ n = 1).
Proof.
  induction l as [| x l IH]; cbn [delete_one List.find].
  - by left.
  - destruct (f x) eqn:Hx.
    + right. by exists [], x, l.
    + destruct (delete_one f l) as [rest n].
      destruct IH as [(Hn & -> & ->) | (pre & y & post & -> & Hy & Hpre & -> & ->)].
      * by left.
      * right. exists (x :: pre), y, post. cbn [List.find app].
        by rewrite Hx.
Qed.

(** X18. Removing a card answers 404 exactly when the user holds no entry
    for it, and then the database is as it was.  Otherwise it takes out the
    first entry of this user for this card and nothing else: the entries of
    other users, and the user's other cards, stay in place and in order. *)
Theorem remove_user_card_answers
    (card_id : string) (current_user : User.t) (s : Store) :
  let '(r, s') := remove_user_card card_id current_user s in
  let held c := UserCard.user_id c = User.id current_user
                ∧ UserCard.card_id c = card_id in
  (r = HTTPException 404 "Card not found in wallet"
   ∧ (∀ c, c ∈ user_cards (core s) → ¬ held c)
   ∧ s' = s)
  ∨ (r = Returned "Card removed from wallet"
     ∧ ∃ pre c post,
         user_cards (core s) = pre ++ c :: post
         ∧ held c
         ∧ (∀ c', c' ∈ pre → ¬ held c')
         ∧ s' = with_user_cards s (pre ++ post)).
Proof.
  unfold remove_user_card.
  pose proof (delete_one_spec (wallet_entry (User.id current_user) card_id)
                (user_cards (core s))) as Hd.
  destruct (delete_one _ _) as [rest n].
  destruct Hd as [(Hn & -> & ->) | (pre & c & post & Hl & Hc & Hpre & -> & ->)].
  - rewrite decide_True by done. left. split_and!; [done | | ].
    + by apply find_entry_none.
    + apply with_user_cards_same.
  - rewrite decide_False by done. right. split; [done |].
    unfold wallet_entry in Hc. apply andb_prop in Hc as [Hu Hi].
    apply bool_decide_eq_true in Hu, Hi.
    exists pre, c, post. split_and!; [done | done | done | | done].
    by apply find_entry_none.
Qed.

(** X19. Adding a card and then removing it gives back the database as it
    was before, entry for entry. *)
Theorem add_then_remove_restores
    (uuid4 : string) (utcnow : Z) (card_id : string) (current_user : User.t)
    (s s' : Store) (user_card : UserCard.t) :
  add_user_card uuid4 utcnow card_id current_user s = (Returned user_card, s') →
  remove_user_card card_id current_user s'
  = (Returned "Card removed from wallet", s).
Proof.
  unfold add_user_card.
  destruct (List.find _ (credit_cards s)) as [card |] eqn:Hcard; [| done].
  destruct (List.find _ (user_cards (core s))) eqn:Hheld; [done |].
  intros [= <- <-]. apply find_card_some in Hcard as [_ Hid].
  unfold remove_user_card. cbn [core with_user_cards user_cards].
  pose proof (delete_one_spec (wallet_entry (User.id current_user) card_id)
                (user_cards (core s) ++
                   [UserCard.mk uuid4 (User.id current_user)
                      (CreditCard.id card) (CreditCard.name card)
                      (CreditCard.issuer card) (CreditCard.color card)
                      (CreditCard.rewards card) utcnow])) as Hd.
  destruct (delete_one _ _) as [rest n].
  destruct Hd as [(Hn & _) | (pre & c & post & Hl & Hc & Hpre & -> & ->)].
  - rewrite find_snoc, Hheld in Hn. unfold wallet_entry in Hn.
    cbn [UserCard.user_id UserCard.card_id] in Hn.
    rewrite !bool_decide_eq_true_2 in Hn by done. done.
  - rewrite decide_False by done. f_equal.
    assert (Hpost : post = []).
    { destruct post as [| y post] using rev_ind; [done |].
      rewrite app_comm_cons, app_assoc in Hl.
      apply app_inj_tail in Hl as [Hl _].
      rewrite Hl in Hheld. rewrite find_entry_none in Hheld.
      unfold wallet_entry in Hc. apply andb_prop in Hc as [Hu Hi].
      apply bool_decide_eq_true in Hu, Hi.
      destruct (Hheld c); [| done].
      apply elem_of_app. right. apply list_elem_of_here. }
    subst post. apply app_inj_tail in Hl as [<- _]. rewrite app_nil_r.
    destruct s as [us cc [pl uc nl]]. reflexivity.
Qed.

Lemma add_then_remove_restores_witness :
  add_user_card "uc-1" 7 "card-1" alice shop
  = (Returned alice_double_cash, with_user_cards shop [alice_double_cash])
  ∧ remove_user_card "card-1" alice (with_user_cards shop [alice_double_cash])
    = (Returned "Card removed from wallet", shop).
Proof.
  split; [exact shop_add |].
  exact (add_then_remove_restores _ _ _ _ _ _ _ shop_add).
Defined.

Lemma seed_cards_length uuid4 : length (seed_cards uuid4) = 7%nat.
Proof. unfold seed_cards. by rewrite length_imap. Qed.

Lemma default_cards_pay :
  Forall (λ row, pays_everywhere row.1.2) default_cards.
Proof.
  unfold default_cards.
  repeat (apply Forall_cons; split;
          [cbn [fst snd]; split;
           [repeat (apply map_Forall_insert_2; [done |]);
            apply map_Forall_empty
           | vm_compute; first [left; by eexists | right; by eexists]] |]).
  constructor.
Qed.

(** X20. The catalogue listing is never empty: an empty catalogue is first
    filled with the seven default cards.  A catalogue that has cards is
    listed without being written, so only the first listing ever seeds,
    and a listing repeated at once returns the same cards. *)
Theorem get_all_cards_seeds_once (uuid4 uuid4' : nat → string) (s : Store) :
  let '(cards, s') := get_all_cards uuid4 s in
  cards ≠ []
  ∧ cards = take 1000 (credit_cards s')
  ∧ users s' = users s ∧ core s' = core s
  ∧ (credit_cards s = [] →
     credit_cards s' = seed_cards uuid4 ∧ length cards = 7%nat)
  ∧ (credit_cards s ≠ [] → s' = s)
  ∧ get_all_cards uuid4' s' = (cards, s').
Proof.
  unfold get_all_cards.
  destruct (take 1000 (credit_cards s)) as [| c cs] eqn:Ht.
  - apply take_nil_inv in Ht. unfold initialize_credit_cards. rewrite Ht.
    cbn [app credit_cards users core].
    assert (Hsz : take 1000 (seed_cards uuid4) = seed_cards uuid4).
    { apply take_ge. rewrite seed_cards_length. lia. }
    rewrite Hsz.
    assert (Hne : seed_cards uuid4 ≠ []).
    { intros Hn. apply (f_equal length) in Hn.
      by rewrite seed_cards_length in Hn. }
    split_and!; try done.
  - split_and!; try done.
    + intros Hs. by rewrite Hs in Ht.
    + by rewrite Ht.
Qed.

Lemma seed_cards_pay uuid4 :
  Forall (λ card, pays_everywhere (CreditCard.rewards card)) (seed_cards uuid4).
Proof.
  unfold seed_cards. apply Forall_lookup. intros i card Hi.
  rewrite list_lookup_imap in Hi.
  destruct (default_cards !! i) as [[[[[name issuer] color] rewards] fee] |]
    eqn:Hrow; [| done].
  cbn in Hi. injection Hi as <-. cbn [CreditCard.rewards].
  pose proof default_cards_pay as Hpay. rewrite Forall_lookup in Hpay.
  exact (Hpay _ _ Hrow).
Qed.

Lemma copied_from_more catalogue extra c :
  copied_from catalogue c → copied_from (catalogue ++ extra) c.
Proof.
  intros (card & Hin & H). exists card. split; [| done].
  apply elem_of_app. by left.
Qed.

Lemma wallet_unique_snoc cards c :
  wallet_unique cards →
  (∀ c', c' ∈ cards →
         ¬ (UserCard.user_id c' = UserCard.user_id c
            ∧ UserCard.card_id c' = UserCard.card_id c)) →
  wallet_unique (cards ++ [c]).
Proof.
  unfold wallet_unique. intros Hnd Hfresh. rewrite map_app. cbn [map].
  apply NoDup_app. split_and!; [done | | apply NoDup_singleton].
  intros key Hkey Hc. apply list_elem_of_singleton in Hc. subst key.
  apply list_elem_of_fmap in Hkey as (c' & Heq & Hin).
  injection Heq as Hu Hi. by destruct (Hfresh c' Hin).
Qed.

Lemma wallet_unique_remove pre c post :
  wallet_unique (pre ++ c :: post) → wallet_unique (pre ++ post).
Proof.
  unfold wallet_unique. rewrite !map_app. cbn [map].
  intros Hnd. apply NoDup_app in Hnd as (H1 & H2 & H3).
  apply NoDup_cons in H3 as [_ H3].
  apply NoDup_app. split_and!; [done | | done].
  intros key Hk Hk'. apply (H2 key Hk). by apply list_elem_of_further.
Qed.

Lemma serve_keeps_inv current_user q s :
  store_inv s → store_inv (snd (serve current_user q s)).
Proof.
  intros (Huniq & Hcopy & Hpay). destruct q as [u4 | u4 now cid | | cid | env loc];
    cbn [serve].
  - unfold get_all_cards.
    destruct (take 1000 (credit_cards s)) eqn:Ht; cbn [snd];
      [| by split_and!].
    unfold store_inv, initialize_credit_cards. cbn [core credit_cards].
    split_and!; [done | |].
    + eapply Forall_impl; [exact Hcopy |]. intros c. apply copied_from_more.
    + apply Forall_app. split; [done | apply seed_cards_pay].
  - unfold add_user_card.
    destruct (List.find _ (credit_cards s)) as [card |] eqn:Hcard;
      [| by split_and!].
    destruct (List.find _ (user_cards (core s))) eqn:Hheld; [by split_and! |].
    apply find_card_some in Hcard as [Hin Hid].
    rewrite find_entry_none in Hheld. cbn [snd].
    unfold store_inv. cbn [with_user_cards core user_cards credit_cards].
    split_and!; [| | done].
    + apply wallet_unique_snoc; [done |].
      cbn [UserCard.user_id UserCard.card_id].
      intros c' Hc' [Hu Hi]. apply (Hheld c' Hc'). split; congruence.
    + apply Forall_app. split; [done |]. apply Forall_singleton.
      exists card. by split_and!.
  - by split_and!.
  - unfold remove_user_card.
    pose proof (delete_one_spec (wallet_entry (User.id current_user) cid)
                  (user_cards (core s))) as Hd.
    destruct (delete_one _ _) as [rest n].
    assert (Hrest : store_inv (with_user_cards s rest)).
    { destruct Hd as [(_ & -> & _) | (pre & c & post & Hl & _ & _ & -> & _)].
      - rewrite with_user_cards_same. by split_and!.
      - unfold store_inv. cbn [with_user_cards core user_cards credit_cards].
        rewrite Hl in Huniq, Hcopy. split_and!; [| | done].
        + by eapply wallet_unique_remove.
        + apply Forall_app in Hcopy as [H1 H2].
          apply Forall_cons in H2 as [_ H2]. apply Forall_app. by split. }
    by case_decide.
  - unfold location_check.
    pose proof (handle_frame (mkCall env loc current_user) (core s)) as Hf.
    destruct (handle _ (core s)) as [r d']. cbn [snd].
    destruct Hf as (_ & Hcards & _).
    unfold store_inv. cbn [core credit_cards]. rewrite Hcards.
    by split_and!.
Qed.

(** X21. Whatever requests are served and in whatever order, three facts
    about the database survive: no user holds the same catalogue card
    twice; every wallet entry is a copy of a card of the catalogue; every
    catalogue card has positive rates and a catch-all key. *)
Theorem serve_all_keeps_store_inv (qs : list (User.t * Request)) (s : Store) :
  store_inv s → store_inv (snd (serve_all qs s)).
Proof.
  revert s. induction qs as [| [u q] qs IH]; intros s Hinv; [done |].
  cbn [serve_all].
  pose proof (serve_keeps_inv u q s Hinv) as H1.
  destruct (serve u q s) as [a s1]. cbn [snd] in H1.
  specialize (IH s1 H1). by destruct (serve_all qs s1) as [rest s2].
Qed.

Lemma empty_store_inv : store_inv empty_store.
Proof. split_and!; [apply NoDup_nil_2 | constructor | constructor]. Qed.

Lemma serve_all_keeps_store_inv_witness :
  store_inv empty_store
  ∧ store_inv
      (snd (serve_all
              [(alice, GetCards (λ i, "card-" +:+ pretty i));
               (alice, AddCard "uc-1" 7 "card-3");
               (alice, AddCard "uc-2" 8 "card-3")]
              empty_store)).
Proof.
  split; [exact empty_store_inv |].
  exact (serve_all_keeps_store_inv _ _ empty_store_inv).
Defined.

Lemma wallet_subset user_id d c : c ∈ wallet user_id d → c ∈ user_cards d.
Proof.
  unfold wallet. intros Hin. apply subseteq_take in Hin.
  apply list_elem_of_In, filter_In in Hin as [Hin _]. by apply list_elem_of_In.
Qed.

(** X22. As long as every catalogue card has positive rates and a
    catch-all key, which the seven default cards do, no location check ever
    answers that no card matches: a user with a card in the wallet who is
    at a merchant and not throttled gets a recommendation. *)
Theorem location_check_never_no_match
    (qs : list (User.t * Request)) (s : Store) (r : Response) :
  store_inv s →
  Located r ∈ fst (serve_all qs s) →
  ∀ merchant category, r ≠ NoMatch merchant category.
Proof.
  revert s. induction qs as [| [u q] qs IH]; intros s Hinv; cbn [serve_all].
  - intros Hin. by apply elem_of_nil in Hin.
  - pose proof (serve_keeps_inv u q s Hinv) as H1.
    destruct (serve u q s) as [a s1] eqn:Hserve. cbn [snd] in H1.
    specialize (IH s1 H1). destruct (serve_all qs s1) as [rest s2].
    cbn [fst] in IH |- *. intros Hin.
    apply elem_of_cons in Hin as [<- | Hin]; [| by apply IH].
    destruct q as [u4 | u4 now cid | | cid | env loc]; cbn [serve] in Hserve.
    + by destruct (get_all_cards u4 s).
    + by destruct (add_user_card u4 now cid u s).
    + done.
    + by destruct (remove_user_card cid u s).
    + unfold location_check in Hserve. revert Hserve. rewrite handle_eq.
      cbn [call_env call_location call_user]. cbn zeta.
      destruct Hinv as (_ & Hcopy & Hpay).
      destruct (nearest_poi _ _) as [p |]; [| by intros [= <- _]].
      destruct (List.find _ _); [by intros [= <- _] |].
      destruct (wallet (User.id u) (core s)) as [| c0 cs0] eqn:Hw;
        [by intros [= <- _] |].
      pose proof (best_card_spec (c0 :: cs0) (POILocation.category p)) as Hs.
      cbn zeta in Hs.
      destruct (get_best_card_for_category _ _) as [[bc br] |];
        [by intros [= <- _] |].
      apply Forall_cons in Hs as [Hs _].
      assert (Hin : c0 ∈ user_cards (core s)).
      { apply (wallet_subset (User.id u)). rewrite Hw. apply list_elem_of_here. }
      rewrite Forall_forall in Hcopy. rewrite Forall_forall in Hpay.
      destruct (Hcopy c0 Hin) as (card & Hcard & _ & _ & _ & _ & Hrw).
      pose proof (pays_everywhere_rate _ (POILocation.category p)
                    (Hpay card Hcard)) as Hpos.
      rewrite <- Hrw in Hpos. lia.
Qed.

Lemma scene_store_inv : store_inv scene_store.
Proof.
  split_and!.
  - unfold wallet_unique. cbn. apply NoDup_cons. split.
    + intros Hin. apply list_elem_of_singleton in Hin. discriminate.
    + apply NoDup_singleton.
  - repeat (apply Forall_cons; split); [| | constructor].
    + eexists. split; [apply list_elem_of_here | by split_and!].
    + eexists. split; [apply list_elem_of_further, list_elem_of_here |].
      by split_and!.
  - repeat (apply Forall_cons; split); [| | constructor].
    + split; [| right; by eexists].
      repeat (apply map_Forall_insert_2; [done |]). apply map_Forall_empty.
    + split; [| left; by eexists].
      repeat (apply map_Forall_insert_2; [done |]). apply map_Forall_empty.
Qed.

Lemma scene_store_located :
  fst (serve_all [(alice, CheckLocation (env_at 0) at_chevron)] scene_store)
  = [Located (Recommended chevron_rec)].
Proof.
  cbn [serve_all serve]. unfold location_check, handle, scene_store, scene.
  cbn [core call_env call_location call_user].
  by rewrite scene_recommends.
Qed.

Lemma location_check_never_no_match_witness :
  store_inv scene_store
  ∧ Located (Recommended chevron_rec)
    ∈ fst (serve_all [(alice, CheckLocation (env_at 0) at_chevron)] scene_store)
  ∧ ∀ merchant category, Recommended chevron_rec ≠ NoMatch merchant category.
Proof.
  assert (Hin : Located (Recommended chevron_rec)
                ∈ fst (serve_all [(alice, CheckLocation (env_at 0) at_chevron)]
                         scene_store)).
  { rewrite scene_store_located. apply list_elem_of_here. }
  split_and!; [exact scene_store_inv | exact Hin |].
  exact (location_check_never_no_match _ _ _ scene_store_inv Hin).
Defined.

(** ** Accounts and tokens *)

(** X23. [get_current_user] fails with status 401 only, and with one of two
    details: "Token expired" exactly when decoding raised
    [ExpiredSignatureError], "Invalid token" for everything else.  The
    "User not found" exception raised inside the [try] block is caught by
    the [except Exception] clause and never reaches the caller.  When it
    succeeds, the user is a stored one whose id the token carries. *)
Theorem get_current_user_masks_user_not_found
    (jwt_decode : string → Z → Decoded) (utcnow : Z) (token : string)
    (s : Store) :
  match get_current_user jwt_decode utcnow token s with
  | Returned user =>
      ∃ doc, doc ∈ users s
             ∧ jwt_decode token utcnow = Payload (Some (UserDoc.id doc))
             ∧ user = to_user doc
  | HTTPException status_code detail =>
      status_code = 401
      ∧ detail ≠ "User not found"
      ∧ (detail = "Token expired" ↔ jwt_decode token utcnow = ExpiredSignature)
      ∧ (detail = "Invalid token"
         ↔ (jwt_decode token utcnow ≠ ExpiredSignature))
      ∧ (current_user_try jwt_decode utcnow token s
         = inl (RaisedHTTP 401 "User not found")
         ↔ ∃ user_id, jwt_decode token utcnow = Payload user_id
                      ∧ ∀ doc, doc ∈ users s → Some (UserDoc.id doc) ≠ user_id)
  end.
Proof.
  unfold get_current_user, current_user_try.
  destruct (jwt_decode token utcnow) as [user_id | |] eqn:Hd.
  - destruct (List.find _ (users s)) as [doc |] eqn:Hf.
    + apply find_some in Hf as [Hin Hid]. apply bool_decide_eq_true in Hid.
      exists doc. rewrite list_elem_of_In. by rewrite Hid.
    + split_and!; [done | done | done | done |].
      split; [| done]. intros _. exists user_id. split; [done |].
      intros doc Hin Hid. apply list_elem_of_In in Hin.
      pose proof (find_none _ _ Hf doc Hin) as Hn. simpl in Hn.
      by apply bool_decide_eq_false in Hn.
  - split_and!; try done. split; [done |]. by intros (? & ? & _).
  - split_and!; try done. split; [done |]. by intros (? & ? & _).
Qed.

Lemma find_email_none email docs :
  List.find (λ u, bool_decide (UserDoc.email u = email)) docs = None
  ↔ email ∉ map UserDoc.email docs.
Proof.
  split.
  - intros Hf Hin. apply list_elem_of_fmap in Hin as (doc & -> & Hin).
    apply list_elem_of_In in Hin.
    pose proof (find_none _ _ Hf doc Hin) as Hn. simpl in Hn.
    by apply bool_decide_eq_false in Hn.
  - intros Hnot. destruct (List.find _ docs) as [doc |] eqn:Hf; [| done].
    apply find_some in Hf as [Hin Hid]. apply bool_decide_eq_true in Hid.
    destruct Hnot. apply list_elem_of_fmap. exists doc.
    by rewrite list_elem_of_In.
Qed.

Lemma signup_step hashpw jwt_encode env user_data s :
  let '(r, s') := signup hashpw jwt_encode env user_data s in
  credit_cards s' = credit_cards s ∧ core s' = core s
  ∧ ((UserSignup.email user_data ∈ map UserDoc.email (users s)
      ∧ r = HTTPException 400 "Email already registered" ∧ s' = s)
     ∨ ((UserSignup.email user_data ∉ map UserDoc.email (users s))
        ∧ ∃ reply doc, r = Returned reply
            ∧ users s' = users s ++ [doc]
            ∧ UserDoc.email doc = UserSignup.email user_data
            ∧ UserDoc.password_hash doc
              = hashpw (UserSignup.password user_data) (signup_salt env))).
Proof.
  unfold signup.
  destruct (List.find _ (users s)) as [doc |] eqn:Hf.
  - split_and!; [done | done |]. left. split_and!; [| done | done].
    apply find_some in Hf as [Hin Hid]. apply bool_decide_eq_true in Hid.
    apply list_elem_of_fmap. exists doc. by rewrite list_elem_of_In.
  - split_and!; [done | done |]. right. split; [by apply find_email_none |].
    by eexists _, _.
Qed.

(** X24. Sign-ups keep the e-mail addresses of [db.users] distinct: an
    address already registered is refused with status 400 and nothing is
    written.  Over any run of sign-ups the collection only grows at its
    end, by one document per sign-up accepted, and the other collections
    are not touched. *)
Theorem signup_keeps_emails_distinct
    (hashpw : string → string → string) (jwt_encode : string → Z → string)
    (reqs : list (SignupEnv * UserSignup.t)) (s : Store) :
  NoDup (map UserDoc.email (users s)) →
  let '(rs, s') := signup_all hashpw jwt_encode reqs s in
  NoDup (map UserDoc.email (users s'))
  ∧ credit_cards s' = credit_cards s ∧ core s' = core s
  ∧ (∃ new, users s' = users s ++ new
            ∧ length new
              = length (List.filter
                          (λ r, match r with Returned _ => true | _ => false end)
                          rs))
  ∧ Forall2 (λ req r,
               UserSignup.email req.2 ∈ map UserDoc.email (users s) →
               r = HTTPException 400 "Email already registered")
      reqs rs.
Proof.
  revert s. induction reqs as [| [env user_data] reqs IH]; intros s Hnd;
    cbn [signup_all].
  - split_and!; [done | done | done | | constructor].
    exists []. by rewrite app_nil_r.
  - pose proof (signup_step hashpw jwt_encode env user_data s) as Hs.
    destruct (signup hashpw jwt_encode env user_data s) as [r s1].
    destruct Hs as (Hc1 & Hk1 & Hs).
    assert (Hnd1 : NoDup (map UserDoc.email (users s1))).
    { destruct Hs as [(_ & _ & ->) | (Hnot & reply & doc & _ & -> & He & _)];
        [done |].
      rewrite map_app. cbn [map]. apply NoDup_app.
      split_and!; [done | | apply NoDup_singleton].
      intros e He1 He2. apply list_elem_of_singleton in He2. subst e.
      by rewrite He in He1. }
    specialize (IH s1 Hnd1).
    destruct (signup_all hashpw jwt_encode reqs s1) as [rs s2].
    destruct IH as (Hnd2 & Hc2 & Hk2 & (new2 & Hu2 & Hl2) & Hall).
    split_and!; [done | congruence | congruence | |].
    + destruct Hs as [(_ & -> & ->) | (_ & reply & doc & -> & Hu1 & _)].
      * exists new2. by split.
      * exists (doc :: new2). split.
        -- rewrite Hu2, Hu1. by rewrite <- app_assoc.
        -- cbn [List.filter length]. by rewrite Hl2.
    + constructor.
      * cbn [snd]. intros Hin.
        destruct Hs as [(_ & -> & _) | (Hnot & _)]; done.
      * eapply Forall2_impl; [exact Hall |]. cbn beta.
        intros [env' data'] r' Himp Hin. apply Himp.
        destruct Hs as [(_ & _ & ->) | (_ & _ & doc & _ & -> & _)]; [done |].
        rewrite map_app. apply elem_of_app. by left.
Qed.

Lemma signup_keeps_emails_distinct_witness :
  NoDup (map UserDoc.email (users empty_store))
  ∧ NoDup (map UserDoc.email
             (users (snd (signup_all toy_hashpw toy_jwt_encode
                            [(alice_env, alice_signup); (alice_env, alice_signup)]
                            empty_store)))).
Proof.
  assert (H : NoDup (map UserDoc.email (users empty_store)))
    by apply NoDup_nil_2.
  split; [exact H |].
  pose proof (signup_keeps_emails_distinct toy_hashpw toy_jwt_encode
                [(alice_env, alice_signup); (alice_env, alice_signup)]
                empty_store H) as Hk.
  destruct (signup_all _ _ _ _) as [rs s']. exact (proj1 Hk).
Defined.

(** X25. Provided [checkpw] accepts a password against its own hash, a
    user who has just signed up can log in with the same e-mail and
    password, and gets the same public fields back with a token for the
    same user id, valid for thirty days from the login. *)
Theorem signup_then_login
    (hashpw : string → string → string) (checkpw : string → string → bool)
    (jwt_encode : string → Z → string)
    (env : SignupEnv) (user_data : UserSignup.t) (s s' : Store)
    (reply : AuthReply) (utcnow : Z) :
  (∀ password salt, checkpw password (hashpw password salt) = true) →
  signup hashpw jwt_encode env user_data s = (Returned reply, s') →
  login checkpw jwt_encode utcnow
    (UserLogin.mk (UserSignup.email user_data) (UserSignup.password user_data)) s'
  = Returned (mkAuthReply
                (jwt_encode (signup_uuid4 env) (utcnow + 30 * 24 * 3600 * 1000000))
                (reply_user reply))
  ∧ reply_user reply
    = User.mk (signup_uuid4 env) (UserSignup.name user_data)
        (UserSignup.email user_data) (UserSignup.phone user_data).
Proof.
  intros Hbcrypt. unfold signup.
  destruct (List.find _ (users s)) eqn:Hf; [done |].
  intros [= <- <-]. split; [| done].
  unfold login. cbn [users UserLogin.email UserLogin.password].
  rewrite find_snoc, Hf. cbn [UserDoc.email].
  rewrite bool_decide_eq_true_2 by done.
  unfold verify_password, hash_password. cbn [UserDoc.password_hash].
  by rewrite Hbcrypt.
Qed.

Lemma toy_checkpw_accepts password salt :
  toy_checkpw password (toy_hashpw password salt) = true.
Proof. unfold toy_checkpw, toy_hashpw. by apply bool_decide_eq_true_2. Qed.

Lemma alice_signs_up :
  signup toy_hashpw toy_jwt_encode alice_env alice_signup empty_store
  = (Returned (mkAuthReply "user-1" alice),
     mkStore [UserDoc.mk "user-1" "Alice" "alice@example.com" "555-0100"
                "correct horse" 0] [] (mkDb [] [] [])).
Proof. reflexivity. Qed.

Lemma signup_then_login_witness :
  (∀ password salt, toy_checkpw password (toy_hashpw password salt) = true)
  ∧ login toy_checkpw toy_jwt_encode 5
      (UserLogin.mk "alice@example.com" "correct horse")
      (mkStore [UserDoc.mk "user-1" "Alice" "alice@example.com" "555-0100"
                  "correct horse" 0] [] (mkDb [] [] []))
    = Returned (mkAuthReply "user-1" alice).
Proof.
  split; [exact toy_checkpw_accepts |].
  exact (proj1 (signup_then_login toy_hashpw toy_checkpw toy_jwt_encode
                  alice_env alice_signup empty_store _ _ 5
                  toy_checkpw_accepts alice_signs_up)).
Defined.

(** X26. Provided [jwt.decode] returns the payload of a token that
    [jwt.encode] made, as long as its expiry lies ahead, and provided the
    id drawn for the new user is not already in use, the token a sign-up
    returns authenticates as the new user for thirty days. *)
Theorem signup_token_authenticates
    (hashpw : string → string → string)
    (jwt_encode : string → Z → string) (jwt_decode : string → Z → Decoded)
    (env : SignupEnv) (user_data : UserSignup.t) (s s' : Store)
    (reply : AuthReply) (utcnow : Z) :
  (∀ user_id exp now, now < exp →
     jwt_decode (jwt_encode user_id exp) now = Payload (Some user_id)) →
  (∀ doc, doc ∈ users s → UserDoc.id doc ≠ signup_uuid4 env) →
  signup hashpw jwt_encode env user_data s = (Returned reply, s') →
  utcnow < signup_now env + timedelta_days 30 →
  get_current_user jwt_decode utcnow (reply_token reply) s'
  = Returned (reply_user reply).
Proof.
  intros Hjwt Hfresh. unfold signup.
  destruct (List.find _ (users s)) eqn:Hf; [done |].
  intros [= <- <-] Hnow. cbn [reply_token reply_user].
  unfold get_current_user, current_user_try, create_token.
  cbn [UserDoc.id users]. rewrite Hjwt by done.
  rewrite find_snoc.
  destruct (List.find (λ u, bool_decide (Some (UserDoc.id u)
                                         = Some (signup_uuid4 env)))
              (users s)) as [doc |] eqn:Hid.
  - apply find_some in Hid as [Hin Heq]. apply bool_decide_eq_true in Heq.
    destruct (Hfresh doc); [by apply list_elem_of_In | congruence].
  - cbn [UserDoc.id]. rewrite bool_decide_eq_true_2 by done. reflexivity.
Qed.

Lemma signup_token_authenticates_witness :
  (∀ user_id exp now, now < exp →
     toy_jwt_decode (toy_jwt_encode user_id exp) now = Payload (Some user_id))
  ∧ get_current_user toy_jwt_decode 5 "user-1"
      (mkStore [UserDoc.mk "user-1" "Alice" "alice@example.com" "555-0100"
                  "correct horse" 0] [] (mkDb [] [] []))
    = Returned alice.
Proof.
  assert (Hjwt : ∀ user_id exp now, now < exp →
            toy_jwt_decode (toy_jwt_encode user_id exp) now
            = Payload (Some user_id)) by done.
  split; [exact Hjwt |].
  refine (signup_token_authenticates toy_hashpw toy_jwt_encode toy_jwt_decode
            alice_env alice_signup empty_store _ _ 5 Hjwt _ alice_signs_up _).
  - intros doc Hin. by apply elem_of_nil in Hin.
  - vm_compute. reflexivity.
Defined.

(** [find_one] returns the first match. *)
Lemma find_first {A} (f : A → bool) l x :
  List.find f l = Some x →
  ∃ pre post, l = pre ++ x :: post ∧ f x = true
              ∧ ∀ y, y ∈ pre → f y = false.
Proof.
  induction l as [| y l IH]; cbn [List.find]; [done |].
  destruct (f y) eqn:Hy.
  - intros [= ->]. exists [], l. split_and!; [done | done |].
    intros z Hz. by apply elem_of_nil in Hz.
  - intros Hf. destruct (IH Hf) as (pre & post & -> & Hx & Hpre).
    exists (y :: pre), post. split_and!; [done | done |].
    intros z Hz. apply elem_of_cons in Hz as [-> | Hz]; [done | by apply Hpre].
Qed.

(** X27. A failed login says the same thing whether the address is unknown
    or the password is wrong: status 401, "Invalid credentials".  The user
    whose hash is checked is the first stored user with that address, no
    other: a successful login is for that user, and a login is refused when
    [checkpw] rejects that user's hash, whatever later documents with the
    same address hold. *)
Theorem login_failure_is_uniform
    (checkpw : string → string → bool) (jwt_encode : string → Z → string)
    (utcnow : Z) (credentials : UserLogin.t) (s : Store) :
  let first_with_email doc :=
    ∃ pre post, users s = pre ++ doc :: post
                ∧ UserDoc.email doc = UserLogin.email credentials
                ∧ ∀ u, u ∈ pre → UserDoc.email u ≠ UserLogin.email credentials in
  match login checkpw jwt_encode utcnow credentials s with
  | HTTPException status_code detail =>
      status_code = 401 ∧ detail = "Invalid credentials"
      ∧ ((UserLogin.email credentials ∉ map UserDoc.email (users s))
         ∨ ∃ doc, first_with_email doc
                  ∧ checkpw (UserLogin.password credentials)
                      (UserDoc.password_hash doc) = false)
  | Returned reply =>
      ∃ doc, first_with_email doc
             ∧ checkpw (UserLogin.password credentials)
                 (UserDoc.password_hash doc) = true
             ∧ reply_user reply = to_user doc
             ∧ reply_token reply
               = jwt_encode (UserDoc.id doc) (utcnow + timedelta_days 30)
  end.
Proof.
  intros first_with_email. unfold login.
  destruct (List.find _ (users s)) as [doc |] eqn:Hf.
  - apply find_first in Hf as (pre & post & Hs & Hid & Hpre).
    apply bool_decide_eq_true in Hid.
    assert (Hfirst : first_with_email doc).
    { exists pre, post. split_and!; [done | done |].
      intros u Hu. specialize (Hpre u Hu). by apply bool_decide_eq_false in Hpre. }
    unfold verify_password.
    destruct (checkpw _ _) eqn:Hpw; cbn [negb].
    + by exists doc.
    + split_and!; [done | done |]. right. by exists doc.
  - split_and!; [done | done |]. left. by apply find_email_none.
Qed.

(** ** The handler beside the other routes *)

(** X28. The location check and the wallet listing agree: "No cards in
    wallet" is answered only to a user whose listing is empty, "No matching
    rewards" only when no listed card has a positive rate for the
    merchant's category, and a recommendation names a listed card. *)
Theorem location_check_agrees_with_listing
    (env : Env) (location : LocationCheck.t) (current_user : User.t)
    (s : Store) :
  let listing := get_user_cards current_user s in
  match fst (location_check env location current_user s) with
  | NoCards _ _ => listing = []
  | NoMatch _ category =>
      listing ≠ []
      ∧ Forall (λ c, card_rate (UserCard.rewards c) category ≤ 0) listing
  | Recommended rec =>
      ∃ c, c ∈ listing
           ∧ UserCard.card_name c = Recommendation.recommended_card rec
           ∧ 0 < card_rate (UserCard.rewards c) (Recommendation.category rec)
           ∧ Forall (λ c', card_rate (UserCard.rewards c')
                             (Recommendation.category rec)
                           ≤ card_rate (UserCard.rewards c)
                               (Recommendation.category rec)) listing
  | NotFound | Throttled _ _ => True
  end.
Proof.
  cbn zeta. unfold location_check, get_user_cards. rewrite handle_eq.
  cbn [call_env call_location call_user]. cbn zeta.
  destruct (nearest_poi _ _) as [p |]; [| done].
  destruct (List.find _ _); [done |].
  destruct (wallet (User.id current_user) (core s)) as [| c0 cs0] eqn:Hw;
    [done |].
  pose proof (best_card_spec (c0 :: cs0) (POILocation.category p)) as Hs.
  cbn zeta in Hs.
  destruct (get_best_card_for_category _ _) as [[bc br] |]; cbn [fst].
  - destruct Hs as (Hpos & -> & Hall & i & Hi & _).
    exists bc. split_and!; [by eapply list_elem_of_lookup_2 | done | done | done].
  - by split.
Qed.

(** What a log record must point at. *)
Lemma handle_log_refs c d :
  let d' := snd (handle c d) in
  ∀ l, l ∈ notification_logs d' →
       l ∈ notification_logs d
       ∨ ((∃ p, p ∈ poi_locations d' ∧ NotificationLog.poi_id l = POILocation.id p)
          ∧ ∃ card, card ∈ user_cards d'
                    ∧ UserCard.user_id card = NotificationLog.user_id l
                    ∧ UserCard.card_name card
                      = NotificationLog.card_recommended l).
Proof.
  cbn zeta. rewrite handle_eq. cbn zeta.
  pose proof (nearest_poi_spec (call_location c)
                (loaded_pois (call_env c) d)) as Hn.
  destruct (nearest_poi _ _) as [p |];
    [| intros l; cbn [snd]; rewrite seeded_logs; by left].
  destruct (List.find _ _); [intros l; cbn [snd]; rewrite seeded_logs; by left |].
  destruct (wallet (User.id (call_user c)) d) as [| c0 cs0] eqn:Hw;
    [intros l; cbn [snd]; rewrite seeded_logs; by left |].
  pose proof (best_card_spec (c0 :: cs0) (POILocation.category p)) as Hs.
  cbn zeta in Hs.
  destruct (get_best_card_for_category _ _) as [[bc br] |];
    [| intros l; cbn [snd]; rewrite seeded_logs; by left].
  cbn [snd notification_logs poi_locations user_cards].
  intros l Hl. apply elem_of_app in Hl as [Hl | Hl]; [by left |].
  apply list_elem_of_singleton in Hl. subst l. right.
  cbn [NotificationLog.poi_id NotificationLog.user_id
       NotificationLog.card_recommended].
  destruct Hn as (_ & _ & i & Hi & _). destruct Hs as (_ & _ & _ & j & Hj & _).
  split.
  - exists p. split; [| done].
    apply list_elem_of_lookup_2 in Hi. by apply subseteq_take in Hi.
  - exists bc. apply list_elem_of_lookup_2 in Hj. rewrite <- Hw in Hj.
    split_and!; [by eapply wallet_subset | | done].
    unfold wallet in Hj. apply subseteq_take in Hj.
    apply list_elem_of_In, filter_In in Hj as [_ Hu].
    by apply bool_decide_eq_true in Hu.
Qed.

(** X29. Every record the handler writes points at documents that exist:
    started from an empty log, after any run of calls each record carries
    the id of a POI of the catalogue and the name of a card that the
    recorded user holds. *)
Theorem log_records_point_at_documents (cs : list Call) (d : Db) :
  notification_logs d = [] →
  let d' := snd (run_calls cs d) in
  ∀ l, l ∈ notification_logs d' →
       (∃ p, p ∈ poi_locations d' ∧ NotificationLog.poi_id l = POILocation.id p)
       ∧ ∃ card, card ∈ user_cards d'
                 ∧ UserCard.user_id card = NotificationLog.user_id l
                 ∧ UserCard.card_name card = NotificationLog.card_recommended l.
Proof.
  intros Hempty. cbn zeta.
  assert (Hgen : ∀ cs d,
            (∀ l, l ∈ notification_logs d →
               (∃ p, p ∈ poi_locations d
                     ∧ NotificationLog.poi_id l = POILocation.id p)
               ∧ ∃ card, card ∈ user_cards d
                         ∧ UserCard.user_id card = NotificationLog.user_id l
                         ∧ UserCard.card_name card
                           = NotificationLog.card_recommended l) →
            ∀ l, l ∈ notification_logs (snd (run_calls cs d)) →
               (∃ p, p ∈ poi_locations (snd (run_calls cs d))
                     ∧ NotificationLog.poi_id l = POILocation.id p)
               ∧ ∃ card, card ∈ user_cards (snd (run_calls cs d))
                         ∧ UserCard.user_id card = NotificationLog.user_id l
                         ∧ UserCard.card_name card
                           = NotificationLog.card_recommended l).
  { clear. induction cs as [| c cs IH]; intros d Hd; [done |].
    cbn [run_calls].
    pose proof (handle_log_refs c d) as Hrefs. cbn zeta in Hrefs.
    pose proof (handle_frame c d) as Hframe.
    destruct (handle c d) as [r d1]. cbn [snd] in Hrefs.
    destruct Hframe as (Hp & Hc & _).
    specialize (IH d1). destruct (run_calls cs d1) as [rs d2]. cbn [snd] in *.
    apply IH. intros l Hl. destruct (Hrefs l Hl) as [Hold | Hnew]; [| done].
    destruct (Hd l Hold) as ((p & Hpin & Hpid) & card & Hcin & Hcu & Hcn).
    split.
    - exists p. split; [| done]. rewrite Hp. unfold seeded.
      destruct (take 1000 (poi_locations d)); [| done].
      cbn [poi_locations]. apply elem_of_app. by left.
    - exists card. by rewrite Hc. }
  apply Hgen. intros l Hl. rewrite Hempty in Hl. by apply elem_of_nil in Hl.
Qed.

Lemma log_records_point_at_documents_witness :
  notification_logs scene = []
  ∧ ∀ l, l ∈ notification_logs (snd (run_calls [call_at 0] scene)) →
         ∃ p, p ∈ poi_locations (snd (run_calls [call_at 0] scene))
              ∧ NotificationLog.poi_id l = POILocation.id p.
Proof.
  assert (H : notification_logs scene = []) by reflexivity.
  split; [exact H |].
  intros l Hl.
  exact (proj1 (log_records_point_at_documents [call_at 0] scene H l Hl)).
Defined.
